(** * Students-assignment solver: a shallow embedding of [solver.py]

    The script validates a table of student votes ([Preferences]), builds a
    CP-SAT model ([build_model]) and reads the solver's answer back into a
    student -> topic dictionary ([solve_model]).

    Python dictionaries that are only looked up or returned are [gmap]s;
    dictionaries that the script iterates over and fills in a given order are
    association lists in insertion order.  Python integers are [Z]; the
    integers handed to OR-tools have to fit in 64 bits, and the library
    raises when one does not.  Exceptions are values of [exn] carried by
    [result].

    The input dictionary [students] is a [gmap]: its keys are distinct, and
    the script walks it in the order of [map_to_list].  That order only
    decides how the variables of the model are numbered; nothing proved
    below depends on it.

    The CP-SAT solver belongs to OR-tools, not to the script.  Its interface
    is the class [CpSolver]: a function from models to responses together with
    the two guarantees the script relies on.  [brute_force] is an instance of
    that class, found by exhaustive search, so the interface is inhabited. *)

From stdpp Require Import base numbers list strings gmap pretty sorting.

Local Open Scope Z_scope.

(** ** Exceptions and results *)

Inductive exn :=
  | AssertionError
  | KeyError
  | ValidationError (locs : list string)
  | ValueError (msg : string)
  | NotInt64 (c : Z).

Inductive result (A : Type) :=
  | Ok (a : A)
  | Raise (e : exn).
Arguments Ok {A} a.
Arguments Raise {A} e.

Definition rbind {A B} (r : result A) (k : A → result B) : result B :=
  match r with
  | Ok a => k a
  | Raise e => Raise e
  end.

(** [NotInt64 c] is the exception OR-tools raises when it is handed the
    integer [c] that does not fit in 64 bits.  Its Python class differs
    between releases of the library ([OverflowError], [TypeError]), so only
    what holds of all of them is used: it is not pydantic's
    [ValidationError], and it is not the error of [solve_model].

    A plain [ValueError] is not a [ValidationError]. *)
Definition isinstance_ValidationError (e : exn) : bool :=
  match e with
  | ValidationError _ => true
  | _ => false
  end.

(** ** The data model *)

Definition MAX_POINTS_PER_STUDENT : Z := 9.
Definition MAX_STUDENTS_PER_TOPIC : Z := 2.

Record Vote := mkVote { topic_id : Z; preference : Z }.

Record Preferences := mkPreferences {
  students : gmap string (list Vote);
  topics_count : Z
}.

(** Python's [sum]: a left fold from [0]. *)
Definition sum (l : list Z) : Z := foldl Z.add 0 l.

(** The validator of the field [students]; it runs on every value of the
    dictionary. *)
Definition check_sum (val : list Vote) : result (list Vote) :=
  if decide (sum (preference <$> val) = MAX_POINTS_PER_STUDENT)
  then Ok val
  else Raise AssertionError.

Definition check_sum_fails (val : list Vote) : bool :=
  match check_sum val with
  | Ok _ => false
  | Raise _ => true
  end.

(** [Preferences(students=..., topics_count=...)]: pydantic runs the
    validator on every student, collects the failures and raises one
    [ValidationError] naming them; with no failure the object is built. *)
Definition Preferences_new (raw_students : gmap string (list Vote))
    (raw_topics_count : Z) : result Preferences :=
  match filter (λ kv, check_sum_fails kv.2 = true) (map_to_list raw_students) with
  | [] => Ok (mkPreferences raw_students raw_topics_count)
  | failed => Raise (ValidationError (failed.*1))
  end.

(** ** CP-SAT models

    A variable is its index in the model, in order of creation; the name
    given to [NewBoolVar] and [NewIntVar] is a label and is left out.  The
    script uses three kinds of constraints: [AddExactlyOne], a linear bound
    [Add(sum(...) <= k)], and [Add(x == c).OnlyEnforceIf(lit)]. *)

Inductive Constraint :=
  | ExactlyOne (lits : list nat)
  | SumLe (xs : list nat) (k : Z)
  | EqIf (x : nat) (c : Z) (lit : nat).

Record CpModel := mkCpModel {
  variables : list (Z * Z);
  constraints : list Constraint;
  objective : list nat
}.

Definition empty_model : CpModel := mkCpModel [] [] [].

(** A solution gives one value per variable, in creation order. *)
Definition Value (sol : list Z) (x : nat) : Z := sol !!! x.
Definition BooleanValue (sol : list Z) (x : nat) : bool :=
  bool_decide (Value sol x ≠ 0).

Definition in_domain (x : Z) (d : Z * Z) : Prop := d.1 ≤ x ≤ d.2.

Definition holds (sol : list Z) (c : Constraint) : Prop :=
  match c with
  | ExactlyOne lits =>
      length (filter (λ x, BooleanValue sol x = true) lits) = 1%nat
  | SumLe xs k => sum (Value sol <$> xs) ≤ k
  | EqIf x c lit => BooleanValue sol lit = true → Value sol x = c
  end.

Definition satisfies (m : CpModel) (sol : list Z) : Prop :=
  Forall2 in_domain sol (variables m) ∧ Forall (holds sol) (constraints m).

Definition objective_value (m : CpModel) (sol : list Z) : Z :=
  sum (Value sol <$> objective m).

#[global] Instance in_domain_dec x d : Decision (in_domain x d).
Proof. unfold in_domain. apply _. Defined.

#[global] Instance holds_dec sol c : Decision (holds sol c).
Proof. destruct c; simpl; apply _. Defined.

#[global] Instance satisfies_dec m sol : Decision (satisfies m sol).
Proof. unfold satisfies. apply _. Defined.

(** ** The solver interface *)

Inductive CpSolverStatus := UNKNOWN | MODEL_INVALID | FEASIBLE | INFEASIBLE | OPTIMAL.

#[global] Instance CpSolverStatus_eq_dec : EqDecision CpSolverStatus.
Proof. solve_decision. Defined.

Record CpSolverResponse := mkResponse {
  status : CpSolverStatus;
  solution : list Z
}.

(** What the script relies on when it calls [solver.Solve(model)] with no
    limits set: an [OPTIMAL] answer carries a solution of the model whose
    objective no other solution exceeds, and a model that has a solution is
    answered [OPTIMAL]. *)
Class CpSolver := {
  Solve : CpModel → CpSolverResponse;
  Solve_optimal m :
    status (Solve m) = OPTIMAL →
    satisfies m (solution (Solve m)) ∧
    ∀ sol, satisfies m sol →
      objective_value m sol ≤ objective_value m (solution (Solve m));
  Solve_complete m sol :
    satisfies m sol → status (Solve m) = OPTIMAL
}.

(** ** Building the model: a state monad over [CpModel] that can raise *)

Definition M (A : Type) : Type := CpModel → result (A * CpModel).

Definition mret {A} (a : A) : M A := λ m, Ok (a, m).
Definition mraise {A} (e : exn) : M A := λ _, Raise e.
Definition mbind' {A B} (c : M A) (k : A → M B) : M B :=
  λ m, match c m with
       | Ok (a, m') => k a m'
       | Raise e => Raise e
       end.

Notation "x <- c ;; k" := (mbind' c (λ x, k))
  (at level 100, c at next level, right associativity).
Notation "c ;;; k" := (mbind' c (λ _, k))
  (at level 100, right associativity).

Fixpoint for_each {A B} (f : A → M B) (l : list A) : M (list B) :=
  match l with
  | [] => mret []
  | a :: l' => b <- f a ;; bs <- for_each f l' ;; mret (b :: bs)
  end.

Definition NewBoolVar : M nat := λ m,
  Ok (length (variables m),
      mkCpModel (variables m ++ [(0, 1)]) (constraints m) (objective m)).

Definition NewIntVar (lb ub : Z) : M nat := λ m,
  Ok (length (variables m),
      mkCpModel (variables m ++ [(lb, ub)]) (constraints m) (objective m)).

(** The constants of a linear expression are 64-bit integers: comparing a
    variable with an integer, as in [x == c], raises when [c] is not. *)
Definition INT64_MIN : Z := -9223372036854775808.
Definition INT64_MAX : Z := 9223372036854775807.

Definition is_int64 (c : Z) : Prop := INT64_MIN ≤ c ≤ INT64_MAX.

#[global] Instance is_int64_dec c : Decision (is_int64 c).
Proof. unfold is_int64. apply _. Defined.

Definition assert_is_int64 (c : Z) : M Z :=
  if decide (is_int64 c) then mret c else mraise (NotInt64 c).

(** [model.Add(ct)], for a constraint whose constants have been checked. *)
Definition Add (c : Constraint) : M unit := λ m,
  Ok (tt, mkCpModel (variables m) (constraints m ++ [c]) (objective m)).

Definition AddExactlyOne (lits : list nat) : M unit := Add (ExactlyOne lits).

Definition Maximize (xs : list nat) : M unit := λ m,
  Ok (tt, mkCpModel (variables m) (constraints m) xs).

(** ** Dictionaries kept in insertion order *)

Section dict.
Context {K V : Type} `{EqDecision K}.

Fixpoint dict_get (d : list (K * V)) (k : K) : option V :=
  match d with
  | [] => None
  | (k', v) :: d' => if decide (k' = k) then Some v else dict_get d' k
  end.

(** [d[k] = v]: overwrite in place, or append a new key. *)
Fixpoint dict_set (d : list (K * V)) (k : K) (v : V) : list (K * V) :=
  match d with
  | [] => [(k, v)]
  | (k', v') :: d' =>
      if decide (k' = k) then (k, v) :: d' else (k', v') :: dict_set d' k v
  end.

(** [d[k]] raises [KeyError] on a missing key. *)
Definition getitem (d : list (K * V)) (k : K) : M V :=
  match dict_get d k with
  | Some v => mret v
  | None => mraise KeyError
  end.

End dict.

(** ** [build_model] *)

(** [{v.topic_id: v.preference for v in votes}]: a later vote for the same
    topic overwrites an earlier one. *)
Definition topic2pref (votes : list Vote) : gmap Z Z :=
  foldl (λ d v, <[topic_id v := preference v]> d) ∅ votes.

(** [topic2pref[topic] if topic in topic2pref else 0] *)
Definition topic_value (votes : list Vote) (topic : Z) : Z :=
  match topic2pref votes !! topic with
  | Some w => w
  | None => 0
  end.

(** [{topic: model.NewBoolVar(...) for topic in topics}] *)
Definition new_topic_vars (topics : list Z) : M (list (Z * nat)) :=
  for_each (λ topic, x <- NewBoolVar ;; mret (topic, x)) topics.

(** [topic2students[topic][student] = var] on a [defaultdict(dict)] *)
Definition topic2students_set (d : list (Z * list (string * nat)))
    (topic : Z) (student : string) (var : nat) : list (Z * list (string * nat)) :=
  dict_set d topic (dict_set (default [] (dict_get d topic)) student var).

Definition make_topic2students (student2thesis : list (string * list (Z * nat)))
    : list (Z * list (string * nat)) :=
  foldl (λ d '(student, topics),
           foldl (λ d '(topic, var), topic2students_set d topic student var)
                 d topics)
        [] student2thesis.

(** The name [topics] is bound to [list(range(topics_count))] at first, and
    rebound by the loops [for student, topics in student2thesis.items()]:
    after them it names the dictionary of the last student, and iterating it
    yields that dictionary's keys.  With no student it still names the
    list. *)
Definition topics_after_loops (topics : list Z)
    (student2thesis : list (string * list (Z * nat))) : list Z :=
  match last student2thesis with
  | Some (_, row) => row.*1
  | None => topics
  end.

Definition build_model_body (preferences : Preferences)
    : M (list (string * list (Z * nat))) :=
  let topics := seqZ 0 (topics_count preferences) in
  let items := map_to_list (students preferences) in
  student2thesis <-
    for_each (λ student, row <- new_topic_vars topics ;; mret (student, row))
             (items.*1) ;;
  let topic2students := make_topic2students student2thesis in
  student2joy <-
    for_each (λ student,
                x <- NewIntVar 0 MAX_POINTS_PER_STUDENT ;; mret (student, x))
             (items.*1) ;;
  (* each student has exactly one topic *)
  for_each (λ '(student, topics), AddExactlyOne (topics.*2)) student2thesis ;;;
  (* each topic can be done by at most MAX_STUDENTS_PER_TOPIC *)
  for_each (λ '(topic, students),
              Add (SumLe (students.*2) MAX_STUDENTS_PER_TOPIC))
           topic2students ;;;
  (* consider preferences *)
  let topics := topics_after_loops topics student2thesis in
  for_each (λ '(student, votes),
              for_each (λ topic,
                          row <- getitem student2thesis student ;;
                          topic_given <- getitem row topic ;;
                          joy <- getitem student2joy student ;;
                          c <- assert_is_int64 (topic_value votes topic) ;;
                          Add (EqIf joy c topic_given))
                       topics)
           items ;;;
  (* maximize overall satisfaction *)
  Maximize (student2joy.*2) ;;;
  mret student2thesis.

Definition build_model (preferences : Preferences)
    : result (CpModel * list (string * list (Z * nat))) :=
  match build_model_body preferences empty_model with
  | Ok (student2thesis, model) => Ok (model, student2thesis)
  | Raise e => Raise e
  end.

(** ** [solve_model] *)

Section solve.
Context {solver : CpSolver}.

Definition read_solution (sol : list Z)
    (student2topic : list (string * list (Z * nat))) : gmap string Z :=
  foldl (λ solution '(student, topics),
           foldl (λ solution '(topic, var),
                    if BooleanValue sol var
                    then <[student := topic]> solution
                    else solution)
                 solution topics)
        ∅ student2topic.

Definition solve_model (model : CpModel)
    (student2topic : list (string * list (Z * nat))) : result (gmap string Z) :=
  let response := Solve model in
  if decide (status response ≠ OPTIMAL)
  then Raise (ValueError "Optimal solution not found")
  else Ok (read_solution (solution response) student2topic).

(** The whole run, as [main] and [test_on_random] chain it. *)
Definition solve (raw_students : gmap string (list Vote))
    (raw_topics_count : Z) : result (gmap string Z) :=
  rbind (Preferences_new raw_students raw_topics_count) (λ preferences,
  rbind (build_model preferences) (λ '(model, vars),
  solve_model model vars)).

End solve.

(** ** A solver by exhaustive search *)

(** Every list of values that respects the domains. *)
Fixpoint candidates (doms : list (Z * Z)) : list (list Z) :=
  match doms with
  | [] => [[]]
  | d :: ds =>
      x ← seqZ d.1 (d.2 - d.1 + 1); (λ sol, x :: sol) <$> candidates ds
  end.

(** The first candidate of greatest objective value. *)
Fixpoint best (m : CpModel) (cands : list (list Z)) : option (list Z) :=
  match cands with
  | [] => None
  | c :: cands' =>
      match best m cands' with
      | Some b =>
          if decide (objective_value m c < objective_value m b)
          then Some b else Some c
      | None => Some c
      end
  end.

Definition brute_force_Solve (m : CpModel) : CpSolverResponse :=
  match best m (filter (satisfies m) (candidates (variables m))) with
  | Some sol => mkResponse OPTIMAL sol
  | None => mkResponse INFEASIBLE []
  end.

(** ** Assignments, feasibility and reward *)

(** How many students an assignment sends to [topic]. *)
Definition occurrences (a : gmap string Z) (topic : Z) : nat :=
  length (filter (λ kv, kv.2 = topic) (map_to_list a)).

(** A feasible assignment: every student has one topic, the topic exists,
    and no topic has more than [MAX_STUDENTS_PER_TOPIC] students. *)
Definition feasible (p : Preferences) (a : gmap string Z) : Prop :=
  dom a = dom (students p) ∧
  (∀ s t, a !! s = Some t → 0 ≤ t < topics_count p) ∧
  (∀ t, Z.of_nat (occurrences a t) ≤ MAX_STUDENTS_PER_TOPIC).

(** What one student gets out of an assignment: the weight of the vote for
    the assigned topic, [0] for a topic the student did not vote for
    ([topic_value_voted], [topic_value_unvoted]). *)
Definition joy_of (a : gmap string Z) (student : string) (votes : list Vote) : Z :=
  match a !! student with
  | Some t => topic_value votes t
  | None => 0
  end.

Definition total_reward (p : Preferences) (a : gmap string Z) : Z :=
  sum ((λ kv, joy_of a kv.1 kv.2) <$> map_to_list (students p)).

(** The weights of the data model: non-negative integers. *)
Definition nonneg_weights (raw_students : gmap string (list Vote)) : Prop :=
  ∀ s votes, raw_students !! s = Some votes →
    Forall (λ v, 0 ≤ preference v) votes.

Definition sums_to_budget (raw_students : gmap string (list Vote)) : Prop :=
  ∀ s votes, raw_students !! s = Some votes →
    sum (preference <$> votes) = MAX_POINTS_PER_STUDENT.

Definition in_range (topics_count : Z) (v : Vote) : Prop :=
  0 ≤ topic_id v < topics_count.

(** The last vote of a list that names [topic]. *)
Definition last_vote_for (votes : list Vote) (topic : Z) : option Vote :=
  last (filter (λ v, topic_id v = topic) votes).

(** A vote list with the earlier votes of every repeated topic removed. *)
Fixpoint keep_last_votes (votes : list Vote) : list Vote :=
  match votes with
  | [] => []
  | v :: votes' =>
      if decide (topic_id v ∈ topic_id <$> votes')
      then keep_last_votes votes'
      else v :: keep_last_votes votes'
  end.

(** ** The model in closed form

    With [n] students and [m] topics, in the order of [map_to_list] and of
    [range], the variable of student [i] and topic [j] is [i * m + j] and the
    joy of student [i] is [n * m + i].  [build_model_closed] shows that
    [build_model] returns [model_of] and [thesis_of], unless a value of the
    preference loop does not fit in 64 bits; it then raises [build_error]. *)

Definition bool_var (m i j : nat) : nat := (i * m + j)%nat.
Definition joy_var (n m i : nat) : nat := (n * m + i)%nat.

Definition with_variables (mdl : CpModel) (ds : list (Z * Z)) : CpModel :=
  mkCpModel (variables mdl ++ ds) (constraints mdl) (objective mdl).

Definition with_constraints (mdl : CpModel) (cs : list Constraint) : CpModel :=
  mkCpModel (variables mdl) (constraints mdl ++ cs) (objective mdl).

Definition thesis_of (names : list string) (topics : list Z)
    : list (string * list (Z * nat)) :=
  imap (λ i s, (s, imap (λ j t, (t, (i * length topics + j)%nat)) topics)) names.

Definition joys_of (names : list string) (topics : list Z) : list (string * nat) :=
  imap (λ i s, (s, (length names * length topics + i)%nat)) names.

Definition one_topic_constraints (names : list string) (topics : list Z)
    : list Constraint :=
  (λ sr, ExactlyOne (sr.2.*2)) <$> thesis_of names topics.

Definition capacity_constraints (names : list string) (topics : list Z)
    : list Constraint :=
  (λ tc, SumLe (tc.2.*2) MAX_STUDENTS_PER_TOPIC)
    <$> make_topic2students (thesis_of names topics).

Definition joy_constraints (items : list (string * list Vote)) (topics : list Z)
    : list Constraint :=
  mjoin (imap (λ i kv,
                 imap (λ j t, EqIf (length items * length topics + i)%nat
                                   (topic_value kv.2 t)
                                   (i * length topics + j)%nat)
                      topics)
              items).

Definition model_of (items : list (string * list Vote)) (topics : list Z)
    : CpModel :=
  mkCpModel
    (replicate (length items * length topics) (0, 1)
     ++ replicate (length items) (0, MAX_POINTS_PER_STUDENT))
    (one_topic_constraints (items.*1) topics
     ++ capacity_constraints (items.*1) topics
     ++ joy_constraints items topics)
    ((joys_of (items.*1) topics).*2).

(** The first value that OR-tools refuses, in the order in which the
    preference loop of [build_model] meets the values. *)
Definition overflow_at (votes : list Vote) (topic : Z) : option exn :=
  if decide (is_int64 (topic_value votes topic)) then None
  else Some (NotInt64 (topic_value votes topic)).

Definition overflow (topics : list Z) (kv : string * list Vote) : option exn :=
  head (omap (overflow_at kv.2) topics).

Definition build_error (items : list (string * list Vote)) (topics : list Z)
    : option exn :=
  head (omap (overflow topics) items).

(** Every value that reaches the model fits in 64 bits. *)
Definition values_fit (p : Preferences) : Prop :=
  ∀ s votes t, students p !! s = Some votes → 0 ≤ t < topics_count p →
    is_int64 (topic_value votes t).

Definition columns_of (names : list string) (topics : list Z)
    : list (Z * list (string * nat)) :=
  imap (λ j t, (t, imap (λ i s, (s, (i * length topics + j)%nat)) names)) topics.

Definition add_student (s : string) (d : list (Z * list (string * nat)))
    (row : list (Z * nat)) : list (Z * list (string * nat)) :=
  foldl (λ d '(topic, var), topic2students_set d topic s var) d row.

(** ** Assignments and solutions *)

(** The topic [solve_model] ends up writing for a student: the last
    variable of the row that the solver set to true. *)
Definition chosen (sol : list Z) (row : list (Z * nat)) : option (Z * nat) :=
  last (filter (λ tx, BooleanValue sol tx.2 = true) row).

Definition read_row (sol : list Z) (student : string)
    (solution : gmap string Z) (row : list (Z * nat)) : gmap string Z :=
  foldl (λ solution '(topic, var),
           if BooleanValue sol var
           then <[student := topic]> solution
           else solution)
        solution row.

Definition indicator (P : Prop) `{Decision P} : Z := if decide P then 1 else 0.

(** The values of all variables that describe the assignment [a]: the
    booleans row by row, then the joys. *)
Definition solution_of (a : gmap string Z) (items : list (string * list Vote))
    (topics : list Z) : list Z :=
  mjoin ((λ kv, (λ t, indicator (a !! kv.1 = Some t)) <$> topics) <$> items)
  ++ ((λ kv, joy_of a kv.1 kv.2) <$> items).

(** Students taken two by two: the [i]-th student gets topic [i / 2]. *)
Definition two_per_topic (items : list (string * list Vote)) : gmap string Z :=
  list_to_map (imap (λ i kv, (kv.1, Z.of_nat (i / 2))) items).

(** ** Further notions *)

(** An assignment the model can express: the joy of every student fits the
    domain [0, MAX_POINTS_PER_STUDENT] of the joy variable. *)
Definition admissible (p : Preferences) (a : gmap string Z) : Prop :=
  ∀ s votes t, students p !! s = Some votes → a !! s = Some t →
    0 ≤ topic_value votes t ≤ MAX_POINTS_PER_STUDENT.

(** The votes that reach the model: those for a topic of the range, and of
    these the last one for each topic. *)
Definition relevant_votes (topics_count : Z) (votes : list Vote) : list Vote :=
  keep_last_votes (filter (in_range topics_count) votes).

(** ** The random test data

    [_random_preferences] and [test_on_random] draw from Python's module
    [random].  The module is an interface, [Random]: a generator state and
    the two draws the script makes, with what the library promises of them.
    [random.choices] returns [k] members of a non-empty population and
    raises [IndexError] on an empty one; [random.sample] returns [k] members
    at distinct positions and raises [ValueError] when [k] exceeds the size
    of the population.  [first_draws] is an instance that always takes the
    first members. *)

Inductive py_exn :=
  | IndexError (msg : string)
  | Script (e : exn).

Inductive outcome (A : Type) :=
  | Done (a : A)
  | Raised (e : py_exn).
Arguments Done {A} a.
Arguments Raised {A} e.

Class Random := {
  rng : Type;
  draw_choices : list Z → nat → rng → list Z * rng;
  draw_sample : list Z → nat → rng → list Z * rng;
  draw_choices_spec population k g :
    population ≠ [] →
    length (draw_choices population k g).1 = k ∧
    Forall (λ x, x ∈ population) (draw_choices population k g).1;
  draw_sample_spec population k g :
    (k ≤ length population)%nat →
    length (draw_sample population k g).1 = k ∧
    (draw_sample population k g).1 ⊆+ population
}.

Section random.
Context {random : Random}.

Definition Rand (A : Type) : Type := rng → outcome (A * rng).

Definition rret {A} (a : A) : Rand A := λ g, Done (a, g).
Definition rbind' {A B} (c : Rand A) (k : A → Rand B) : Rand B :=
  λ g, match c g with
       | Done (a, g') => k a g'
       | Raised e => Raised e
       end.

(** A part of the script that draws nothing. *)
Definition lift {A} (r : result A) : Rand A :=
  λ g, match r with
       | Ok a => Done (a, g)
       | Raise e => Raised (Script e)
       end.

Definition random_choices (population : list Z) (k : nat) : Rand (list Z) :=
  λ g, match population with
       | [] => Raised (IndexError "list index out of range")
       | _ => Done (draw_choices population k g)
       end.

Definition random_sample (population : list Z) (k : nat) : Rand (list Z) :=
  λ g, if decide (k ≤ length population)%nat
       then Done (draw_sample population k g)
       else Raised (Script (ValueError
                      "Sample larger than population or is negative")).

End random.

Notation "x <~ c ;; k" := (rbind' c (λ x, k))
  (at level 100, c at next level, right associativity).

(** Python's slice [l[i:j]]: a negative index counts from the end, and
    both indices are clipped to the list. *)
Definition slice_index (len i : Z) : Z :=
  if decide (i < 0) then Z.max 0 (i + len) else Z.min i len.

Definition slice {A} (l : list A) (i j : Z) : list A :=
  let len := Z.of_nat (length l) in
  take (Z.to_nat (slice_index len j - slice_index len i))
       (drop (Z.to_nat (slice_index len i)) l).

Definition N_STUDENTS : Z := 150.
Definition N_TOPICS : Z := 90.

(** [f"student_{i}"] *)
Definition student_name (i : Z) : string := "student_" +:+ pretty i.

Section random_script.
Context {random : Random}.

Definition _random_preferences (max_sum max_topics : Z) : Rand (list Vote) :=
  let points := replicate (Z.to_nat max_sum) 1 in
  picked <~ random_choices (seqZ 0 max_sum) 2 ;;
  let indexes := [0] ++ merge_sort Z.le picked ++ [max_sum] in
  topics <~ random_sample (seqZ 0 max_topics) 3 ;;
  rret (zip_with (λ t ij, mkVote t (sum (slice points ij.1 ij.2)))
                 topics
                 (zip (slice indexes 0 (-1)) (drop 1 indexes))).

(** [{f"student_{i}": _random_preferences(...) for i in range(N_STUDENTS)}],
    entry after entry. *)
Fixpoint random_students (ids : list Z) (students : gmap string (list Vote))
    : Rand (gmap string (list Vote)) :=
  match ids with
  | [] => rret students
  | i :: ids' =>
      votes <~ _random_preferences MAX_POINTS_PER_STUDENT N_TOPICS ;;
      random_students ids' (<[student_name i := votes]> students)
  end.

(** [test_on_random]; the value is the dictionary it prints. *)
Definition test_on_random {solver : CpSolver} : Rand (gmap string Z) :=
  students <~ random_students (seqZ 0 N_STUDENTS) ∅ ;;
  lift (solve students N_TOPICS).

End random_script.

(** A generator that always takes the first members of the population. *)
Definition first_choices (population : list Z) (k : nat) (g : unit)
    : list Z * unit :=
  (replicate k (default 0 (head population)), g).

Definition first_sample (population : list Z) (k : nat) (g : unit)
    : list Z * unit :=
  (take k population, g).

(** ** Concrete inputs *)

Definition three_students : gmap string (list Vote) :=
  {[ "ann" := [mkVote 0 9];
     "bob" := [mkVote 0 5; mkVote 1 4];
     "cy" := [mkVote 0 9] ]}.

Definition three_students_best : gmap string Z :=
  {[ "ann" := 0; "bob" := 1; "cy" := 0 ]}.

Definition three_students_other : gmap string Z :=
  {[ "ann" := 0; "bob" := 0; "cy" := 1 ]}.

(** One student whose only vote names topic 5, with a single topic. *)
Definition far_vote : gmap string (list Vote) := {[ "ann" := [mkVote 5 9] ]}.

(** One student who votes twice for topic 0. *)
Definition twice_voted : gmap string (list Vote) :=
  {[ "ann" := [mkVote 0 5; mkVote 0 4] ]}.

(** One student with a negative weight; the weights sum to 9. *)
Definition negative_vote : gmap string (list Vote) :=
  {[ "ann" := [mkVote 0 10; mkVote 1 (-1)] ]}.

(** Three students; one weight of the first is [2^63], and the weights of
    every student sum to 9. *)
Definition huge_vote : gmap string (list Vote) :=
  {[ "ann" := [mkVote 0 9223372036854775808;
               mkVote 1 (-9223372036854775799)];
     "bob" := [mkVote 0 9];
     "cy" := [mkVote 0 9] ]}.

(** One student whose second vote for topic 0 replaces the weight 12 by
    the weight -3. *)
Definition overwritten_vote : gmap string (list Vote) :=
  {[ "ann" := [mkVote 0 12; mkVote 0 (-3)] ]}.

(** One student whose second vote for topic 0 has the weight [2^63]. *)
Definition huge_duplicate : gmap string (list Vote) :=
  {[ "ann" := [mkVote 0 1; mkVote 0 9223372036854775808;
               mkVote 1 (-9223372036854775800)] ]}.

(** The model and the dictionary of [three_students] with two topics. *)
Definition three_students_model : CpModel :=
  model_of (map_to_list three_students) (seqZ 0 2).

Definition three_students_thesis : list (string * list (Z * nat)) :=
  thesis_of (map_to_list three_students).*1 (seqZ 0 2).

(** Two rows of two variables, and values under which the first row has
    both of its variables true and the second none. *)
Definition two_rows : list (string * list (Z * nat)) :=
  [("ann", [(0, 0%nat); (1, 1%nat)]); ("bob", [(0, 2%nat); (1, 3%nat)])].

Definition two_rows_values : list Z := [1; 1; 0; 0].

(** * Proofs *)

(** ** Sums *)

Lemma foldl_add_from (a : Z) (l : list Z) :
  foldl Z.add a l = a + foldl Z.add 0 l.
Proof.
  revert a. induction l as [|x l IH]; intros a; simpl; [lia|].
  rewrite (IH (a + x)), (IH (0 + x)). lia.
Qed.

Lemma sum_nil : sum [] = 0.
Proof. reflexivity. Qed.

Lemma sum_cons (x : Z) (l : list Z) : sum (x :: l) = x + sum l.
Proof. unfold sum. simpl. apply foldl_add_from. Qed.

Lemma sum_app (l1 l2 : list Z) : sum (l1 ++ l2) = sum l1 + sum l2.
Proof.
  induction l1 as [|x l1 IH]; simpl; [rewrite sum_nil; lia|].
  rewrite !sum_cons, IH. lia.
Qed.

Lemma sum_nonneg (l : list Z) : Forall (λ x, 0 ≤ x) l → 0 ≤ sum l.
Proof.
  induction 1 as [|x l Hx _ IH]; [rewrite sum_nil; lia|].
  rewrite sum_cons. lia.
Qed.

Lemma sum_elem_le (l : list Z) (x : Z) :
  Forall (λ y, 0 ≤ y) l → x ∈ l → x ≤ sum l.
Proof.
  induction 1 as [|y l Hy Hl IH]; intros Hin; [by apply elem_of_nil in Hin|].
  rewrite sum_cons. apply elem_of_cons in Hin as [->|Hin].
  - pose proof (sum_nonneg l Hl). lia.
  - specialize (IH Hin). lia.
Qed.

(** ** Construction of [Preferences] *)

Lemma filter_nil_Forall {A} (P : A → Prop) `{∀ x, Decision (P x)} (l : list A) :
  filter P l = [] ↔ Forall (λ x, ¬ P x) l.
Proof.
  induction l as [|x l IH]; [by rewrite filter_nil|].
  rewrite filter_cons, Forall_cons. destruct (decide (P x)); [|tauto].
  split; [done|tauto].
Qed.

Lemma check_sum_fails_false (val : list Vote) :
  check_sum_fails val = false ↔
  sum (preference <$> val) = MAX_POINTS_PER_STUDENT.
Proof.
  unfold check_sum_fails, check_sum. case_decide; split; done.
Qed.

Lemma check_sum_fails_true (val : list Vote) :
  check_sum_fails val = true ↔
  sum (preference <$> val) ≠ MAX_POINTS_PER_STUDENT.
Proof.
  unfold check_sum_fails, check_sum. case_decide; split; done.
Qed.

Lemma failed_students_nil (raw_students : gmap string (list Vote)) :
  filter (λ kv, check_sum_fails kv.2 = true) (map_to_list raw_students) = []
  ↔ sums_to_budget raw_students.
Proof.
  rewrite filter_nil_Forall. unfold sums_to_budget. split.
  - intros Hall s votes Hs.
    apply elem_of_map_to_list in Hs.
    rewrite Forall_forall in Hall. specialize (Hall _ Hs). simpl in Hall.
    apply check_sum_fails_false. by destruct (check_sum_fails votes).
  - intros Hall. apply Forall_forall. intros [s votes] Hs. simpl.
    apply elem_of_map_to_list in Hs.
    apply Hall, check_sum_fails_false in Hs. by rewrite Hs.
Qed.

Lemma Preferences_new_Ok raw_students raw_topics_count :
  sums_to_budget raw_students →
  Preferences_new raw_students raw_topics_count
  = Ok (mkPreferences raw_students raw_topics_count).
Proof.
  intros Hsum. unfold Preferences_new.
  apply failed_students_nil in Hsum. by rewrite Hsum.
Qed.

Lemma Preferences_new_Raise raw_students raw_topics_count :
  ¬ sums_to_budget raw_students →
  ∃ locs, locs ≠ [] ∧
    Preferences_new raw_students raw_topics_count
    = Raise (ValidationError locs).
Proof.
  intros Hsum. unfold Preferences_new.
  rewrite <- failed_students_nil in Hsum.
  destruct (filter _ _) as [|kv failed]; [done|].
  exists ((kv :: failed).*1). split; done.
Qed.

Lemma Preferences_new_inv raw_students raw_topics_count p :
  Preferences_new raw_students raw_topics_count = Ok p →
  sums_to_budget raw_students ∧ p = mkPreferences raw_students raw_topics_count.
Proof.
  intros Hok.
  destruct (decide (sums_to_budget raw_students)) as [Hsum|Hsum].
  - rewrite (Preferences_new_Ok _ _ Hsum) in Hok. by inversion Hok.
  - destruct (Preferences_new_Raise _ raw_topics_count Hsum) as (locs & _ & Hr).
    congruence.
Qed.

(** ** The exhaustive solver meets the interface *)

Lemma elem_of_candidates (doms : list (Z * Z)) (sol : list Z) :
  sol ∈ candidates doms ↔ Forall2 in_domain sol doms.
Proof.
  revert sol. induction doms as [|d ds IH]; intros sol; simpl.
  - rewrite list_elem_of_singleton. split; [intros ->; constructor|].
    by intros ->%Forall2_nil_inv_r.
  - rewrite list_elem_of_bind. split.
    + intros (x & Hsol & Hx). apply list_elem_of_fmap in Hsol as (sol' & -> & Hsol').
      apply elem_of_seqZ in Hx. constructor; [unfold in_domain; lia|by apply IH].
    + intros Hall. apply Forall2_cons_inv_r in Hall as (x & sol' & Hx & Hsol' & ->).
      exists x. split.
      * apply list_elem_of_fmap. exists sol'. split; [done|by apply IH].
      * apply elem_of_seqZ. unfold in_domain in Hx. lia.
Qed.

Lemma best_None (m : CpModel) (cands : list (list Z)) :
  best m cands = None → cands = [].
Proof.
  destruct cands as [|c cands]; [done|]. simpl.
  destruct (best m cands); [case_decide|]; done.
Qed.

Lemma best_Some (m : CpModel) (cands : list (list Z)) (b : list Z) :
  best m cands = Some b →
  b ∈ cands ∧ ∀ c, c ∈ cands → objective_value m c ≤ objective_value m b.
Proof.
  revert b. induction cands as [|c cands IH]; intros b; simpl; [done|].
  destruct (best m cands) as [b'|] eqn:Hbest.
  - destruct (IH b' eq_refl) as [Hin Hmax].
    case_decide as Hlt; intros [= <-].
    + split; [by right|]. intros c' [->|Hc']%elem_of_cons; [lia|by apply Hmax].
    + split; [by left|]. intros c' [->|Hc']%elem_of_cons; [lia|].
      specialize (Hmax _ Hc'). lia.
  - apply best_None in Hbest as ->. intros [= <-].
    split; [by left|]. intros c' [->|Hc']%elem_of_cons; [lia|].
    by apply elem_of_nil in Hc'.
Qed.

Lemma brute_force_optimal (m : CpModel) :
  status (brute_force_Solve m) = OPTIMAL →
  satisfies m (solution (brute_force_Solve m)) ∧
  ∀ sol, satisfies m sol →
    objective_value m sol ≤ objective_value m (solution (brute_force_Solve m)).
Proof.
  unfold brute_force_Solve.
  destruct (best m _) as [b|] eqn:Hbest; simpl; [intros _|done].
  apply best_Some in Hbest as [Hin Hmax].
  apply list_elem_of_filter in Hin as [Hsat _]. split; [done|].
  intros sol Hsol. apply Hmax, list_elem_of_filter. split; [done|].
  apply elem_of_candidates, Hsol.
Qed.

Lemma brute_force_complete (m : CpModel) (sol : list Z) :
  satisfies m sol → status (brute_force_Solve m) = OPTIMAL.
Proof.
  intros Hsol. unfold brute_force_Solve.
  destruct (best m _) as [b|] eqn:Hbest; [done|].
  apply best_None in Hbest.
  assert (sol ∈ filter (satisfies m) (candidates (variables m))) as Hin.
  { apply list_elem_of_filter. split; [done|]. apply elem_of_candidates, Hsol. }
  rewrite Hbest in Hin. by apply elem_of_nil in Hin.
Qed.

Definition brute_force : CpSolver :=
  {| Solve := brute_force_Solve;
     Solve_optimal := brute_force_optimal;
     Solve_complete := brute_force_complete |}.

(** ** Dictionaries *)

Section dict_facts.
Context {K V : Type} `{EqDecision K}.
Implicit Types (d : list (K * V)) (k : K) (v : V).

Lemma dict_get_None d k : k ∉ d.*1 → dict_get d k = None.
Proof.
  induction d as [|[k' v'] d IH]; simpl; [done|].
  rewrite not_elem_of_cons. intros [Hne Hnin].
  case_decide; [congruence|by apply IH].
Qed.

Lemma dict_get_lookup d i k v :
  NoDup (d.*1) → d !! i = Some (k, v) → dict_get d k = Some v.
Proof.
  revert i. induction d as [|[k' v'] d IH]; intros i Hnd Hi; [done|].
  simpl in *. apply NoDup_cons in Hnd as [Hnin Hnd].
  destruct i as [|i]; simpl in Hi.
  - inversion Hi; subst. by rewrite decide_True.
  - case_decide as Heq; [|by eapply IH].
    subst k'. exfalso. apply Hnin.
    apply list_elem_of_fmap. exists (k, v). split; [done|].
    by eapply list_elem_of_lookup_2.
Qed.

Lemma dict_set_fresh d k v : k ∉ d.*1 → dict_set d k v = d ++ [(k, v)].
Proof.
  induction d as [|[k' v'] d IH]; simpl; [done|].
  rewrite not_elem_of_cons. intros [Hne Hnin].
  case_decide; [congruence|]. by rewrite IH.
Qed.

Lemma dict_set_middle d1 d2 k v v' :
  k ∉ d1.*1 → dict_set (d1 ++ (k, v) :: d2) k v' = d1 ++ (k, v') :: d2.
Proof.
  induction d1 as [|[k1 v1] d1 IH]; simpl.
  - intros _. by rewrite decide_True.
  - rewrite not_elem_of_cons. intros [Hne Hnin].
    case_decide; [congruence|]. by rewrite IH.
Qed.

Lemma dict_get_middle d1 d2 k v :
  k ∉ d1.*1 → dict_get (d1 ++ (k, v) :: d2) k = Some v.
Proof.
  induction d1 as [|[k1 v1] d1 IH]; simpl.
  - intros _. by rewrite decide_True.
  - rewrite not_elem_of_cons. intros [Hne Hnin].
    case_decide; [congruence|]. by rewrite IH.
Qed.

End dict_facts.

(** ** Running the loops of [build_model] *)

Lemma with_variables_nil mdl : with_variables mdl [] = mdl.
Proof. destruct mdl. unfold with_variables. simpl. by rewrite app_nil_r. Qed.

Lemma with_constraints_nil mdl : with_constraints mdl [] = mdl.
Proof. destruct mdl. unfold with_constraints. simpl. by rewrite app_nil_r. Qed.

Lemma with_variables_app mdl ds1 ds2 :
  with_variables (with_variables mdl ds1) ds2 = with_variables mdl (ds1 ++ ds2).
Proof. unfold with_variables. simpl. by rewrite app_assoc. Qed.

Lemma with_constraints_app mdl cs1 cs2 :
  with_constraints (with_constraints mdl cs1) cs2
  = with_constraints mdl (cs1 ++ cs2).
Proof. unfold with_constraints. simpl. by rewrite app_assoc. Qed.

(** A loop whose body creates one variable of domain [d] per item. *)
Lemma for_each_new_var {A B} (f : A → M B) (g : nat → A → B) (d : Z * Z)
    (l : list A) (mdl : CpModel) :
  (∀ a mdl', f a mdl'
     = Ok (g (length (variables mdl')) a, with_variables mdl' [d])) →
  for_each f l mdl
  = Ok (imap (λ i a, g (length (variables mdl) + i)%nat a) l,
        with_variables mdl (replicate (length l) d)).
Proof.
  intros Hf. revert mdl. induction l as [|a l IH]; intros mdl.
  - simpl. unfold mret. by rewrite with_variables_nil.
  - simpl. unfold mbind'. rewrite Hf, IH. unfold mret.
    rewrite with_variables_app. simpl. rewrite length_app. simpl.
    f_equal. f_equal.
    rewrite Nat.add_0_r. f_equal. apply imap_ext. intros i x _. simpl.
    f_equal. lia.
Qed.

(** A loop whose body only adds constraints; [g i a] are those of the
    [i]-th item [a]. *)
Lemma for_each_add {A B} (f : A → M B) (g : nat → A → list Constraint)
    (l : list A) (mdl : CpModel) :
  (∀ i a mdl', l !! i = Some a →
     ∃ b, f a mdl' = Ok (b, with_constraints mdl' (g i a))) →
  ∃ bs, for_each f l mdl = Ok (bs, with_constraints mdl (mjoin (imap g l))).
Proof.
  revert g mdl. induction l as [|a l IH]; intros g mdl Hf.
  - exists []. simpl. unfold mret. by rewrite with_constraints_nil.
  - destruct (Hf 0%nat a mdl) as [b Hb]; [done|].
    destruct (IH (g ∘ S) (with_constraints mdl (g 0%nat a))) as [bs Hbs].
    { intros i a' mdl' Ha'. by apply (Hf (S i)). }
    exists (b :: bs). simpl. unfold mbind'. rewrite Hb, Hbs. unfold mret.
    by rewrite with_constraints_app.
Qed.

(** A loop whose body adds constraints or raises; [err a] is the error of
    the item [a], if it has one.  The loop raises the first error. *)
Lemma for_each_add_or_raise {A B} (f : A → M B)
    (g : nat → A → list Constraint) (err : A → option exn)
    (l : list A) (mdl : CpModel) :
  (∀ i a mdl', l !! i = Some a →
     match err a with
     | None => ∃ b, f a mdl' = Ok (b, with_constraints mdl' (g i a))
     | Some e => f a mdl' = Raise e
     end) →
  match head (omap err l) with
  | None =>
      ∃ bs, for_each f l mdl = Ok (bs, with_constraints mdl (mjoin (imap g l)))
  | Some e => for_each f l mdl = Raise e
  end.
Proof.
  revert g mdl. induction l as [|a l IH]; intros g mdl Hf.
  - exists []. simpl. unfold mret. by rewrite with_constraints_nil.
  - pose proof (Hf 0%nat a mdl eq_refl) as Ha. simpl.
    destruct (err a) as [e|]; simpl.
    + unfold mbind'. by rewrite Ha.
    + destruct Ha as [b Hb].
      specialize (IH (g ∘ S) (with_constraints mdl (g 0%nat a))).
      change (list_omap A exn err l) with (omap err l).
      unfold mbind'. rewrite Hb.
      destruct (head (omap err l)) as [e|].
      * rewrite IH; [done|].
        intros i a' mdl' Ha'. by apply (Hf (S i)).
      * destruct IH as [bs Hbs].
        { intros i a' mdl' Ha'. by apply (Hf (S i)). }
        exists (b :: bs). rewrite Hbs. unfold mret.
        by rewrite with_constraints_app.
Qed.

Lemma join_imap_singleton {A B} (h : nat → A → B) (l : list A) :
  mjoin (imap (λ i a, [h i a]) l) = imap h l.
Proof.
  revert h. induction l as [|a l IH]; intros h; [done|].
  simpl. f_equal. apply IH.
Qed.

(** ** [build_model] returns the model in closed form *)

Lemma new_topic_vars_run (topics : list Z) (mdl : CpModel) :
  new_topic_vars topics mdl
  = Ok (imap (λ j t, (t, (length (variables mdl) + j)%nat)) topics,
        with_variables mdl (replicate (length topics) (0, 1))).
Proof.
  unfold new_topic_vars.
  by rewrite (for_each_new_var _ (λ k t, (t, k)) (0, 1)).
Qed.

Lemma thesis_run (names : list string) (topics : list Z) (mdl : CpModel) :
  for_each (λ student, row <- new_topic_vars topics ;; mret (student, row))
           names mdl
  = Ok (imap (λ i s, (s, imap (λ j t,
                (t, (length (variables mdl) + i * length topics + j)%nat))
                topics)) names,
        with_variables mdl (replicate (length names * length topics) (0, 1))).
Proof.
  revert mdl. induction names as [|s names IH]; intros mdl.
  - simpl. unfold mret. by rewrite with_variables_nil.
  - simpl. unfold mbind' at 1. unfold mbind' at 1.
    rewrite new_topic_vars_run. unfold mret at 1. unfold mbind'.
    rewrite IH. unfold mret. rewrite with_variables_app.
    rewrite <- replicate_add. f_equal. f_equal. f_equal.
    + f_equal. apply imap_ext. intros j t _. f_equal. lia.
    + apply imap_ext. intros i s' _. simpl. f_equal.
      apply imap_ext. intros j t _. f_equal.
      rewrite length_app, length_replicate. lia.
Qed.

Lemma joys_run (names : list string) (mdl : CpModel) :
  for_each (λ student,
              x <- NewIntVar 0 MAX_POINTS_PER_STUDENT ;; mret (student, x))
           names mdl
  = Ok (imap (λ i s, (s, (length (variables mdl) + i)%nat)) names,
        with_variables mdl
          (replicate (length names) (0, MAX_POINTS_PER_STUDENT))).
Proof.
  by rewrite (for_each_new_var _ (λ k s, (s, k)) (0, MAX_POINTS_PER_STUDENT)).
Qed.

Lemma thesis_of_lookup names topics i s :
  names !! i = Some s →
  thesis_of names topics !! i
  = Some (s, imap (λ j t, (t, (i * length topics + j)%nat)) topics).
Proof. intros Hi. unfold thesis_of. by rewrite list_lookup_imap, Hi. Qed.

Lemma thesis_of_names names topics : (thesis_of names topics).*1 = names.
Proof.
  apply list_eq. intros i. unfold thesis_of.
  rewrite list_lookup_fmap, list_lookup_imap. by destruct (names !! i).
Qed.

Lemma length_thesis_of names topics :
  length (thesis_of names topics) = length names.
Proof. apply length_imap. Qed.

Lemma row_topics {A B} (f : nat → B) (topics : list A) :
  (imap (λ j t, (t, f j)) topics).*1 = topics.
Proof.
  apply list_eq. intros j.
  rewrite list_lookup_fmap, list_lookup_imap. by destruct (topics !! j).
Qed.

Lemma row_vars {A} (f : nat → nat) (topics : list A) :
  (imap (λ j t, (t, f j)) topics).*2 = f <$> seq 0 (length topics).
Proof.
  apply list_eq. intros j.
  rewrite !list_lookup_fmap, list_lookup_imap.
  destruct (topics !! j) as [t|] eqn:Hj; simpl.
  - apply lookup_lt_Some in Hj. by rewrite lookup_seq_lt.
  - apply lookup_ge_None in Hj. by rewrite lookup_ge_None_2; [|rewrite length_seq].
Qed.

Lemma joys_of_names names topics : (joys_of names topics).*1 = names.
Proof.
  apply list_eq. intros i. unfold joys_of.
  rewrite list_lookup_fmap, list_lookup_imap. by destruct (names !! i).
Qed.

Lemma joys_of_lookup names topics i s :
  names !! i = Some s →
  joys_of names topics !! i
  = Some (s, (length names * length topics + i)%nat).
Proof. intros Hi. unfold joys_of. by rewrite list_lookup_imap, Hi. Qed.

Lemma topics_after_loops_same names topics :
  topics_after_loops topics (thesis_of names topics) = topics.
Proof.
  unfold topics_after_loops. rewrite last_lookup. unfold thesis_of.
  rewrite list_lookup_imap.
  destruct (names !! _) as [s|]; simpl; [|done]. apply row_topics.
Qed.

(** The body of the preference loop never misses a key; it raises only for
    a value that does not fit in 64 bits. *)
Lemma joy_loop_run (items : list (string * list Vote)) (topics : list Z)
    (mdl : CpModel) :
  NoDup (items.*1) → NoDup topics →
  match build_error items topics with
  | None =>
      ∃ bs,
        for_each (λ '(student, votes),
                    for_each (λ topic,
                       row <- getitem (thesis_of (items.*1) topics) student ;;
                       topic_given <- getitem row topic ;;
                       joy <- getitem (joys_of (items.*1) topics) student ;;
                       c <- assert_is_int64 (topic_value votes topic) ;;
                       Add (EqIf joy c topic_given))
                     topics)
                 items mdl
        = Ok (bs, with_constraints mdl (joy_constraints items topics))
  | Some e =>
      for_each (λ '(student, votes),
                  for_each (λ topic,
                     row <- getitem (thesis_of (items.*1) topics) student ;;
                     topic_given <- getitem row topic ;;
                     joy <- getitem (joys_of (items.*1) topics) student ;;
                     c <- assert_is_int64 (topic_value votes topic) ;;
                     Add (EqIf joy c topic_given))
                   topics)
               items mdl
      = Raise e
  end.
Proof.
  intros Hnames Htopics. unfold joy_constraints, build_error.
  apply for_each_add_or_raise. intros i [s votes] mdl' Hi.
  assert (items.*1 !! i = Some s) as Hs.
  { by rewrite list_lookup_fmap, Hi. }
  rewrite <- join_imap_singleton.
  unfold overflow. cbn [snd].
  apply for_each_add_or_raise. intros j t mdl'' Hj.
  unfold overflow_at, assert_is_int64.
  destruct (decide (is_int64 (topic_value votes t))) as [Hfit|Hbig];
    [exists tt|];
    unfold mbind', getitem;
    (erewrite dict_get_lookup;
       [|by rewrite thesis_of_names|by apply thesis_of_lookup]);
    unfold mret at 1;
    (erewrite dict_get_lookup;
       [|by rewrite row_topics|by rewrite list_lookup_imap, Hj]);
    unfold mret at 1;
    (erewrite dict_get_lookup;
       [|by rewrite joys_of_names|by apply joys_of_lookup]);
    unfold mret at 1.
  - unfold mret. simpl. by rewrite !length_fmap.
  - done.
Qed.

Lemma imap_ignore_index {A B} (f : A → B) (l : list A) :
  imap (λ _, f) l = f <$> l.
Proof. apply imap_const. Qed.

Lemma build_model_closed (p : Preferences) :
  build_model p
  = match build_error (map_to_list (students p)) (seqZ 0 (topics_count p)) with
    | None =>
        Ok (model_of (map_to_list (students p)) (seqZ 0 (topics_count p)),
            thesis_of (map_to_list (students p)).*1 (seqZ 0 (topics_count p)))
    | Some e => Raise e
    end.
Proof.
  unfold build_model, build_model_body.
  set (items := map_to_list (students p)).
  set (topics := seqZ 0 (topics_count p)).
  unfold mbind' at 1. rewrite thesis_run. simpl.
  fold (thesis_of (items.*1) topics).
  unfold mbind' at 1. rewrite joys_run. simpl.
  rewrite length_replicate. fold (joys_of (items.*1) topics).
  rewrite topics_after_loops_same.
  set (mdl2 := with_variables _ _).
  unfold mbind' at 1.
  destruct (for_each_add (λ '(_, topics0), AddExactlyOne (topics0.*2))
              (λ _ sr, [ExactlyOne (sr.2.*2)])
              (thesis_of (items.*1) topics) mdl2) as [bs1 ->].
  { intros i [s row] mdl' _. by exists tt. }
  unfold mbind' at 1.
  destruct (for_each_add
              (λ '(_, students), Add (SumLe (students.*2) MAX_STUDENTS_PER_TOPIC))
              (λ _ tc, [SumLe (tc.2.*2) MAX_STUDENTS_PER_TOPIC])
              (make_topic2students (thesis_of (items.*1) topics))
              (with_constraints mdl2
                 (mjoin (imap (λ _ sr, [ExactlyOne (sr.2.*2)])
                              (thesis_of (items.*1) topics)))))
    as [bs2 ->].
  { intros i [t col] mdl' _. by exists tt. }
  unfold mbind' at 1.
  pose proof (joy_loop_run items topics
              (with_constraints
                 (with_constraints mdl2
                    (mjoin (imap (λ _ sr, [ExactlyOne (sr.2.*2)])
                                 (thesis_of (items.*1) topics))))
                 (mjoin (imap (λ _ tc, [SumLe (tc.2.*2) MAX_STUDENTS_PER_TOPIC])
                    (make_topic2students (thesis_of (items.*1) topics)))))
              (NoDup_fst_map_to_list _) (NoDup_seqZ _ _)) as Hloop.
  destruct (build_error items topics) as [e|].
  { by rewrite Hloop. }
  destruct Hloop as [bs3 ->].
  unfold mbind', Maximize, mret, model_of. simpl.
  rewrite !join_imap_singleton, !length_fmap.
  rewrite !imap_ignore_index.
  unfold one_topic_constraints, capacity_constraints.
  by rewrite <- !app_assoc.
Qed.

(** [build_error] finds a value exactly when not all of them fit. *)
Lemma overflow_None topics kv :
  overflow topics kv = None ↔
  Forall (λ t, is_int64 (topic_value kv.2 t)) topics.
Proof.
  unfold overflow. induction topics as [|t topics IH]; simpl.
  - split; [constructor|done].
  - unfold overflow_at at 1. rewrite Forall_cons.
    destruct (decide (is_int64 (topic_value kv.2 t))) as [Hfit|Hbig]; simpl.
    + rewrite IH. by split; [|intros [_ ?]].
    + by split; [|intros [? _]].
Qed.

Lemma overflow_Some topics kv e :
  overflow topics kv = Some e →
  ∃ t, t ∈ topics ∧ ¬ is_int64 (topic_value kv.2 t) ∧
       e = NotInt64 (topic_value kv.2 t).
Proof.
  unfold overflow. induction topics as [|t topics IH]; simpl; [done|].
  unfold overflow_at at 1.
  destruct (decide (is_int64 (topic_value kv.2 t))); simpl.
  - intros (t' & ? & ?)%IH. exists t'. split; [by right|done].
  - intros [= <-]. exists t. split; [by left|done].
Qed.

Lemma build_error_None items topics :
  build_error items topics = None ↔
  Forall (λ kv, Forall (λ t, is_int64 (topic_value kv.2 t)) topics) items.
Proof.
  unfold build_error. induction items as [|kv items IH]; simpl.
  - split; [constructor|done].
  - rewrite Forall_cons, <- overflow_None.
    destruct (overflow topics kv); simpl.
    + by split; [|intros [? _]].
    + rewrite IH. by split; [|intros [_ ?]].
Qed.

Lemma build_error_Some items topics e :
  build_error items topics = Some e →
  ∃ kv t, kv ∈ items ∧ t ∈ topics ∧ ¬ is_int64 (topic_value kv.2 t) ∧
          e = NotInt64 (topic_value kv.2 t).
Proof.
  unfold build_error. induction items as [|kv items IH]; simpl; [done|].
  destruct (overflow topics kv) as [e'|] eqn:Hkv; simpl.
  - intros [= <-]. apply overflow_Some in Hkv as (t & ? & ? & ?).
    exists kv, t. split; [by left|done].
  - intros (kv' & t & ? & ?)%IH. exists kv', t. split; [by right|done].
Qed.

Lemma values_fit_alt p :
  values_fit p ↔
  build_error (map_to_list (students p)) (seqZ 0 (topics_count p)) = None.
Proof.
  rewrite build_error_None, Forall_forall. unfold values_fit. split.
  - intros Hfit [s votes] Hs%elem_of_map_to_list.
    apply Forall_forall. intros t Ht%elem_of_seqZ. apply (Hfit s); [done|lia].
  - intros Hfit s votes t Hs Ht.
    apply elem_of_map_to_list, Hfit in Hs.
    rewrite Forall_forall in Hs. apply Hs, elem_of_seqZ. lia.
Qed.

#[global] Instance values_fit_dec p : Decision (values_fit p).
Proof.
  refine (cast_if (decide (build_error (map_to_list (students p))
                             (seqZ 0 (topics_count p)) = None)));
    by rewrite values_fit_alt.
Defined.

Lemma build_model_fits (p : Preferences) :
  values_fit p →
  build_model p
  = Ok (model_of (map_to_list (students p)) (seqZ 0 (topics_count p)),
        thesis_of (map_to_list (students p)).*1 (seqZ 0 (topics_count p))).
Proof. intros Hfit%values_fit_alt. by rewrite build_model_closed, Hfit. Qed.

Lemma build_model_overflow (p : Preferences) :
  ¬ values_fit p →
  ∃ s votes t,
    students p !! s = Some votes ∧ 0 ≤ t < topics_count p ∧
    ¬ is_int64 (topic_value votes t) ∧
    build_model p = Raise (NotInt64 (topic_value votes t)).
Proof.
  intros Hfit. rewrite values_fit_alt in Hfit. rewrite build_model_closed.
  destruct (build_error _ _) as [e|] eqn:He; [|done].
  apply build_error_Some in He as ([s votes] & t & Hs & Ht & Hbig & ->).
  exists s, votes, t. apply elem_of_seqZ in Ht.
  repeat split; [by apply elem_of_map_to_list|lia..|done].
Qed.

Lemma build_model_Ok_fits p model vars :
  build_model p = Ok (model, vars) → values_fit p.
Proof.
  intros Hok. destruct (decide (values_fit p)) as [|Hfit]; [done|].
  destruct (build_model_overflow p Hfit) as (? & ? & ? & _ & _ & _ & Hr).
  congruence.
Qed.

(** ** [topic2students] is the transpose of [student2thesis] *)

Lemma add_student_first (s : string) (row : list (Z * nat)) d :
  NoDup (row.*1) → (∀ t, t ∈ row.*1 → t ∉ d.*1) →
  add_student s d row = d ++ ((λ tx, (tx.1, [(s, tx.2)])) <$> row).
Proof.
  unfold add_student.
  revert d. induction row as [|[t x] row IH]; intros d Hnd Hfresh; simpl.
  - by rewrite app_nil_r.
  - simpl in Hnd. apply NoDup_cons in Hnd as [Ht Hnd].
    unfold topic2students_set at 2.
    rewrite (dict_get_None d t); [|apply Hfresh; by left]. simpl.
    rewrite dict_set_fresh; [|apply Hfresh; by left].
    rewrite IH; [by rewrite <- app_assoc|done|].
    intros t' Ht'. rewrite fmap_app, elem_of_app. simpl.
    rewrite list_elem_of_singleton. intros [Hd| ->]; [|done].
    revert Hd. apply Hfresh. by right.
Qed.

Lemma add_student_next (s : string) (row : list (Z * nat)) d1 d2 :
  d2.*1 = row.*1 → NoDup (row.*1) → (∀ t, t ∈ row.*1 → t ∉ d1.*1) →
  Forall (λ tc, s ∉ tc.2.*1) d2 →
  add_student s (d1 ++ d2) row
  = d1 ++ zip_with (λ tc tx, (tc.1, tc.2 ++ [(s, tx.2)])) d2 row.
Proof.
  unfold add_student.
  revert d1 d2. induction row as [|[t x] row IH]; intros d1 d2 Hkeys Hnd Hfresh Hs.
  - destruct d2; [done|by simpl in Hkeys].
  - destruct d2 as [|[t' c] d2]; [done|]. simpl in Hkeys, Hnd.
    injection Hkeys as -> Hkeys.
    apply NoDup_cons in Hnd as [Ht Hnd].
    apply Forall_cons in Hs as [Hc Hs]. simpl in Hc. simpl.
    unfold topic2students_set at 2.
    rewrite dict_get_middle; [|apply Hfresh; by left]. simpl.
    rewrite (dict_set_fresh c) by done.
    rewrite dict_set_middle; [|apply Hfresh; by left].
    rewrite (cons_middle _ d1 d2), app_assoc.
    rewrite IH; [by rewrite <- app_assoc|done..| |done].
    intros t' Ht'. rewrite fmap_app, elem_of_app. simpl.
    rewrite list_elem_of_singleton. intros [Hd| ->]; [|done].
    revert Hd. apply Hfresh. by right.
Qed.

Lemma thesis_of_snoc names s topics :
  thesis_of (names ++ [s]) topics
  = thesis_of names topics
    ++ [(s, imap (λ j t, (t, (length names * length topics + j)%nat)) topics)].
Proof.
  unfold thesis_of. rewrite imap_app. simpl. by rewrite Nat.add_0_r.
Qed.

Lemma make_topic2students_closed names topics :
  NoDup names → NoDup topics →
  make_topic2students (thesis_of names topics)
  = match names with [] => [] | _ => columns_of names topics end.
Proof.
  intros Hnames Htopics.
  induction names as [|s names IH] using rev_ind; [done|].
  apply NoDup_app in Hnames as (Hnames & Hs & _).
  rewrite thesis_of_snoc. unfold make_topic2students.
  rewrite foldl_app. simpl.
  fold (make_topic2students (thesis_of names topics)).
  fold (add_student s (make_topic2students (thesis_of names topics))
          (imap (λ j t, (t, (length names * length topics + j)%nat)) topics)).
  rewrite (IH Hnames).
  assert (columns_of (names ++ [s]) topics
          = match names ++ [s] with [] => [] | _ => columns_of (names ++ [s]) topics end)
    as <- by (by destruct names).
  destruct names as [|s0 names].
  - simpl. rewrite add_student_first; [|by rewrite row_topics|].
    2:{ intros t _. apply not_elem_of_nil. }
    simpl. unfold columns_of. apply list_eq. intros j.
    rewrite list_lookup_fmap, !list_lookup_imap.
    by destruct (topics !! j).
  - cbv iota. clear IH Hnames. set (l := s0 :: names) in *. clearbody l.
    rewrite <- (app_nil_l (columns_of l topics)).
    rewrite add_student_next.
    + simpl. unfold columns_of. apply list_eq. intros j.
      rewrite lookup_zip_with, !list_lookup_imap.
      destruct (topics !! j) as [t|]; [|done]. simpl.
      f_equal. f_equal. f_equal. f_equal.
      rewrite imap_app. simpl. by rewrite Nat.add_0_r.
    + unfold columns_of. by rewrite !row_topics.
    + by rewrite row_topics.
    + intros t _. apply not_elem_of_nil.
    + unfold columns_of. apply Forall_forall. intros [t c] Hin.
      apply list_elem_of_lookup in Hin as [j Hj].
      rewrite list_lookup_imap in Hj.
      destruct (topics !! j); [|done]. injection Hj as <- <-.
      cbn [snd]. rewrite row_topics.
      intros Hin. apply (Hs s); [done|by left].
Qed.

(** ** What a solution of the model is *)

Lemma one_topic_constraints_closed names topics :
  one_topic_constraints names topics
  = imap (λ i _, ExactlyOne ((λ j, (i * length topics + j)%nat)
                               <$> seq 0 (length topics))) names.
Proof.
  unfold one_topic_constraints, thesis_of. rewrite fmap_imap.
  apply imap_ext. intros i s _. unfold compose. cbn [snd]. by rewrite row_vars.
Qed.

Lemma capacity_constraints_closed names topics :
  NoDup names → NoDup topics →
  capacity_constraints names topics
  = match names with
    | [] => []
    | _ => imap (λ j _, SumLe ((λ i, (i * length topics + j)%nat)
                                 <$> seq 0 (length names))
                              MAX_STUDENTS_PER_TOPIC) topics
    end.
Proof.
  intros Hnames Htopics. unfold capacity_constraints.
  rewrite make_topic2students_closed by done.
  destruct names as [|s0 names]; [done|].
  cbv iota. generalize (s0 :: names). intros l.
  unfold columns_of. rewrite fmap_imap.
  apply imap_ext. intros j t _. unfold compose. cbn [snd].
  by rewrite (row_vars (λ i, (i * length topics + j)%nat)).
Qed.

Lemma Forall_imap {A B} (P : B → Prop) (f : nat → A → B) (l : list A) :
  Forall P (imap f l) ↔ ∀ i a, l !! i = Some a → P (f i a).
Proof.
  rewrite Forall_lookup. split.
  - intros HP i a Hi. apply (HP i). by rewrite list_lookup_imap, Hi.
  - intros HP i b Hi. rewrite list_lookup_imap in Hi.
    destruct (l !! i) as [a|] eqn:Ha; [|done].
    injection Hi as <-. by apply HP.
Qed.

Lemma Forall_join_imap {A B} (P : B → Prop) (f : nat → A → list B) (l : list A) :
  Forall P (mjoin (imap f l)) ↔ ∀ i a, l !! i = Some a → Forall P (f i a).
Proof.
  revert f. induction l as [|a l IH]; intros f; simpl.
  - split; [by intros _ i a ?|constructor].
  - rewrite Forall_app, IH. split.
    + intros [H0 HS] [|i] a' Hi; simpl in Hi; [by injection Hi as <-|].
      by apply HS.
    + intros HP. split; [by apply (HP 0%nat)|].
      intros i a' Hi. by apply (HP (S i)).
Qed.

Section model_facts.
Context (items : list (string * list Vote)) (topics : list Z).
Context (Hnames : NoDup (items.*1)) (Htopics : NoDup topics).

Local Abbreviation n := (length items).
Local Abbreviation m := (length topics).

Lemma satisfies_model_of (sol : list Z) :
  satisfies (model_of items topics) sol ↔
    Forall2 in_domain sol
      (replicate (n * m) (0, 1) ++ replicate n (0, MAX_POINTS_PER_STUDENT)) ∧
    (∀ i, (i < n)%nat →
       length (filter (λ x, BooleanValue sol x = true)
                      (bool_var m i <$> seq 0 m)) = 1%nat) ∧
    (n ≠ 0%nat → ∀ j, (j < m)%nat →
       sum (Value sol <$> ((λ i, bool_var m i j) <$> seq 0 n))
       ≤ MAX_STUDENTS_PER_TOPIC) ∧
    (∀ i j s votes t,
       items !! i = Some (s, votes) → topics !! j = Some t →
       BooleanValue sol (bool_var m i j) = true →
       Value sol (joy_var n m i) = topic_value votes t).
Proof.
  unfold satisfies, model_of. simpl.
  rewrite !Forall_app, one_topic_constraints_closed.
  rewrite capacity_constraints_closed by done.
  unfold joy_constraints. rewrite Forall_join_imap, Forall_imap.
  rewrite length_fmap.
  split; intros (Hdom & H1 & H2 & H3); (split; [done|]); split_and!.
  - intros i Hi.
    destruct (lookup_lt_is_Some_2 (items.*1) i) as [s Hs];
      [by rewrite length_fmap|].
    apply (H1 i s Hs).
  - intros Hn j Hj.
    destruct (lookup_lt_is_Some_2 topics j Hj) as [t Ht].
    destruct (items.*1) as [|s0 names] eqn:Heq.
    { apply (f_equal length) in Heq. rewrite length_fmap in Heq. done. }
    rewrite Forall_imap in H2. apply (H2 j t Ht).
  - intros i j s votes t Hi Hj. specialize (H3 i _ Hi).
    rewrite Forall_imap in H3. apply (H3 j t Hj).
  - intros i s Hs. apply H1. apply lookup_lt_Some in Hs.
    by rewrite length_fmap in Hs.
  - destruct (items.*1) as [|s0 names] eqn:Heq; [constructor|].
    apply Forall_imap. intros j t Hj. apply H2.
    + intros Hn. apply (f_equal length) in Heq.
      rewrite length_fmap, Hn in Heq. done.
    + by eapply lookup_lt_Some.
  - intros i [s votes] Hi. apply Forall_imap. intros j t Hj.
    simpl. by apply (H3 i j s votes t).
Qed.

End model_facts.

(** ** Reading the solution back *)

Lemma read_row_other sol s s' acc row :
  s' ≠ s → read_row sol s acc row !! s' = acc !! s'.
Proof.
  intros Hne. unfold read_row.
  revert acc. induction row as [|[t x] row IH]; intros acc; simpl; [done|].
  rewrite IH. destruct (BooleanValue sol x); [|done].
  by rewrite lookup_insert_ne.
Qed.

Lemma chosen_snoc sol row t x :
  chosen sol (row ++ [(t, x)])
  = if BooleanValue sol x then Some (t, x) else chosen sol row.
Proof.
  unfold chosen. rewrite filter_app, filter_cons, filter_nil. simpl.
  destruct (BooleanValue sol x) eqn:Hx.
  - rewrite decide_True by done. apply last_snoc.
  - rewrite decide_False by done. by rewrite app_nil_r.
Qed.

Lemma read_row_same sol s acc row :
  read_row sol s acc row !! s
  = match chosen sol row with
    | Some tx => Some tx.1
    | None => acc !! s
    end.
Proof.
  induction row as [|[t x] row IH] using rev_ind; [done|].
  unfold read_row in *. rewrite foldl_app, chosen_snoc. simpl.
  destruct (BooleanValue sol x); [|done].
  by rewrite lookup_insert_eq.
Qed.

Lemma read_solution_fold sol acc thesis :
  foldl (λ solution '(student, topics),
           foldl (λ solution '(topic, var),
                    if BooleanValue sol var
                    then <[student := topic]> solution
                    else solution)
                 solution topics)
        acc thesis
  = foldl (λ solution sr, read_row sol sr.1 solution sr.2) acc thesis.
Proof.
  revert acc. induction thesis as [|[s row] thesis IH]; intros acc; [done|].
  simpl. apply IH.
Qed.

Lemma read_rows_notin sol acc thesis s :
  s ∉ thesis.*1 →
  foldl (λ solution sr, read_row sol sr.1 solution sr.2) acc thesis !! s
  = acc !! s.
Proof.
  revert acc. induction thesis as [|[s' row] thesis IH]; intros acc; [done|].
  simpl. rewrite not_elem_of_cons. intros [Hne Hnin].
  rewrite IH by done. by apply read_row_other.
Qed.

Lemma read_rows_in sol acc thesis i s row :
  NoDup (thesis.*1) → thesis !! i = Some (s, row) →
  foldl (λ solution sr, read_row sol sr.1 solution sr.2) acc thesis !! s
  = match chosen sol row with
    | Some tx => Some tx.1
    | None => acc !! s
    end.
Proof.
  revert acc i. induction thesis as [|[s' row'] thesis IH]; intros acc i Hnd Hi;
    [done|].
  simpl in Hnd. apply NoDup_cons in Hnd as [Hnin Hnd].
  destruct i as [|i]; simpl in *.
  - injection Hi as -> ->. rewrite read_rows_notin by done.
    apply read_row_same.
  - rewrite (IH _ i) by done.
    assert (s ≠ s') as Hne.
    { intros ->. apply Hnin. apply list_elem_of_fmap. exists (s', row).
      split; [done|]. by eapply list_elem_of_lookup_2. }
    destruct (chosen sol row); [done|]. by apply read_row_other.
Qed.

Lemma read_solution_lookup sol thesis i s row :
  NoDup (thesis.*1) → thesis !! i = Some (s, row) →
  read_solution sol thesis !! s = fst <$> chosen sol row.
Proof.
  intros Hnd Hi. unfold read_solution.
  rewrite read_solution_fold, (read_rows_in _ _ _ i s row) by done.
  by destruct (chosen sol row).
Qed.

Lemma read_solution_notin sol thesis s :
  s ∉ thesis.*1 → read_solution sol thesis !! s = None.
Proof.
  intros Hnin. unfold read_solution.
  by rewrite read_solution_fold, read_rows_notin.
Qed.

(** ** Counting *)

Lemma filter_fmap_comm {A B} (f : A → B) (P : B → Prop)
    `{∀ y, Decision (P y)} (l : list A) :
  filter P (f <$> l) = f <$> filter (λ x, P (f x)) l.
Proof.
  induction l as [|x l IH]; [done|].
  rewrite fmap_cons, !filter_cons, IH. by destruct (decide (P (f x))).
Qed.

Lemma count_le_sum_imap {A} (P : A → Prop) `{∀ x, Decision (P x)}
    (f : nat → A → Z) (l : list A) :
  (∀ i a, l !! i = Some a → 0 ≤ f i a ∧ (P a → 1 ≤ f i a)) →
  Z.of_nat (length (filter P l)) ≤ sum (imap f l).
Proof.
  revert f. induction l as [|a l IH]; intros f Hf; [done|].
  rewrite imap_cons, sum_cons, filter_cons.
  specialize (IH (f ∘ S) (λ i a' Hi, Hf (S i) a' Hi)).
  destruct (Hf 0%nat a eq_refl) as [H0 H1].
  destruct (decide (P a)) as [HP|HP]; simpl; [specialize (H1 HP)|]; lia.
Qed.

Lemma count_eq_sum_imap {A} (P : A → Prop) `{∀ x, Decision (P x)}
    (f : nat → A → Z) (l : list A) :
  (∀ i a, l !! i = Some a → f i a = if decide (P a) then 1 else 0) →
  sum (imap f l) = Z.of_nat (length (filter P l)).
Proof.
  revert f. induction l as [|a l IH]; intros f Hf; [done|].
  rewrite imap_cons, sum_cons, filter_cons.
  rewrite (IH (f ∘ S) (λ i a' Hi, Hf (S i) a' Hi)).
  rewrite (Hf 0%nat a eq_refl).
  destruct (decide (P a)); simpl; lia.
Qed.

Lemma imap_seq_fmap {A B} (f : nat → B) (l : list A) :
  imap (λ i _, f i) l = f <$> seq 0 (length l).
Proof.
  apply list_eq. intros i. rewrite list_lookup_imap, list_lookup_fmap.
  destruct (l !! i) as [a|] eqn:Hi; simpl.
  - apply lookup_lt_Some in Hi. by rewrite lookup_seq_lt.
  - apply lookup_ge_None in Hi.
    by rewrite lookup_ge_None_2; [|rewrite length_seq].
Qed.

Lemma filter_ext_in {A} (P1 P2 : A → Prop)
    `{!∀ x, Decision (P1 x), !∀ x, Decision (P2 x)} (l : list A) :
  (∀ x, x ∈ l → P1 x ↔ P2 x) → filter P1 l = filter P2 l.
Proof.
  induction l as [|a l IH]; intros Hiff; [done|].
  rewrite !filter_cons, IH by (intros x Hx; apply Hiff; by right).
  destruct (decide (P1 a)) as [H1|H1], (decide (P2 a)) as [H2|H2]; try done.
  - exfalso. apply H2, Hiff; [by left|done].
  - exfalso. apply H1, Hiff; [by left|done].
Qed.

(** An assignment counted along the list of students. *)
Lemma occurrences_via_items (a : gmap string Z)
    (items : list (string * list Vote)) (t : Z) :
  NoDup (items.*1) → (∀ s, is_Some (a !! s) ↔ s ∈ items.*1) →
  occurrences a t = length (filter (λ kv, a !! kv.1 = Some t) items).
Proof.
  intros Hnd Hdom. unfold occurrences.
  set (g := λ kv : string * list Vote, (kv.1, default 0 (a !! kv.1))).
  assert (map_to_list a ≡ₚ g <$> items) as ->.
  { apply NoDup_Permutation.
    - apply NoDup_map_to_list.
    - apply (NoDup_fmap_1 fst). rewrite <- list_fmap_compose.
      by rewrite (list_fmap_ext (fst ∘ g) fst items) by done.
    - intros [s t']. rewrite elem_of_map_to_list, list_elem_of_fmap. split.
      + intros Hs. assert (s ∈ items.*1) as Hin by (apply Hdom; eauto).
        apply list_elem_of_fmap in Hin as (kv & -> & Hkv).
        exists kv. split; [|done]. unfold g. by rewrite Hs.
      + intros (kv & [= -> ->] & Hkv).
        assert (is_Some (a !! kv.1)) as [t' Ht'].
        { apply Hdom. by apply list_elem_of_fmap_2. }
        by rewrite Ht'. }
  rewrite filter_fmap_comm, length_fmap. f_equal.
  apply filter_ext_in. intros kv Hkv. unfold g. simpl.
  assert (is_Some (a !! kv.1)) as [t' Ht'].
  { apply Hdom. by apply list_elem_of_fmap_2. }
  rewrite Ht'. simpl. split; congruence.
Qed.

(** ** From a solution of the model to an assignment *)

Section solution_to_assignment.
Context (items : list (string * list Vote)) (topics : list Z).
Context (Hnames : NoDup (items.*1)) (Htopics : NoDup topics).
Context (sol : list Z) (Hsat : satisfies (model_of items topics) sol).

Local Abbreviation n := (length items).
Local Abbreviation m := (length topics).
Local Abbreviation a := (read_solution sol (thesis_of (items.*1) topics)).

Lemma solution_bool_value i j :
  (i < n)%nat → (j < m)%nat → 0 ≤ Value sol (bool_var m i j) ≤ 1.
Proof.
  intros Hi Hj. apply satisfies_model_of in Hsat as (Hdom & _); [|done..].
  assert ((replicate (n * m) (0, 1)
           ++ replicate n (0, MAX_POINTS_PER_STUDENT)) !! bool_var m i j
          = Some (0, 1)) as Hd.
  { rewrite lookup_app_l by (rewrite length_replicate; unfold bool_var; nia).
    apply lookup_replicate_2. unfold bool_var. nia. }
  destruct (Forall2_lookup_r _ _ _ _ _ Hdom Hd) as (x & Hx & Hin).
  unfold Value. by rewrite (list_lookup_total_correct _ _ _ Hx).
Qed.

Lemma solution_row i s votes :
  items !! i = Some (s, votes) →
  ∃ j t, topics !! j = Some t ∧
         BooleanValue sol (bool_var m i j) = true ∧
         a !! s = Some t.
Proof.
  intros Hi. apply satisfies_model_of in Hsat as (_ & H1 & _); [|done..].
  specialize (H1 i (lookup_lt_Some _ _ _ Hi)).
  set (row := imap (λ j t, (t, (i * m + j)%nat)) topics).
  assert (thesis_of (items.*1) topics !! i = Some (s, row)) as Hrow.
  { apply thesis_of_lookup. by rewrite list_lookup_fmap, Hi. }
  rewrite (read_solution_lookup _ _ i s row);
    [|by rewrite thesis_of_names|done].
  assert (length (filter (λ tx, BooleanValue sol tx.2 = true) row) = 1%nat)
    as Hlen.
  { rewrite <- H1. unfold bool_var.
    rewrite <- (row_vars (λ j, (i * m + j)%nat) topics).
    by rewrite filter_fmap_comm, length_fmap. }
  unfold chosen.
  destruct (filter (λ tx, BooleanValue sol tx.2 = true) row)
    as [|[t x] [|??]] eqn:Hf; try done.
  assert ((t, x) ∈ filter (λ tx, BooleanValue sol tx.2 = true) row) as Hin.
  { rewrite Hf. by left. }
  apply list_elem_of_filter in Hin as [Htrue Hin]. simpl in Htrue.
  apply list_elem_of_lookup in Hin as [j Hj].
  unfold row in Hj. rewrite list_lookup_imap in Hj.
  destruct (topics !! j) as [t'|] eqn:Ht; [|done]. injection Hj as -> <-.
  by exists j, t.
Qed.

Lemma assignment_dom s : is_Some (a !! s) ↔ s ∈ items.*1.
Proof.
  split.
  - intros Hs. destruct (decide (s ∈ items.*1)) as [|Hnin]; [done|].
    rewrite read_solution_notin in Hs by (by rewrite thesis_of_names).
    by destruct Hs.
  - intros Hin. apply list_elem_of_fmap in Hin as ([s' votes] & -> & Hin).
    apply list_elem_of_lookup in Hin as [i Hi].
    destruct (solution_row i s' votes Hi) as (j & t & _ & _ & Ha). eauto.
Qed.

Lemma assignment_in_range s t : a !! s = Some t → t ∈ topics.
Proof.
  intros Hs. assert (s ∈ items.*1) as Hin by (apply assignment_dom; eauto).
  apply list_elem_of_fmap in Hin as ([s' votes] & -> & Hin).
  apply list_elem_of_lookup in Hin as [i Hi].
  destruct (solution_row i s' votes Hi) as (j & t' & Hj & _ & Ha).
  simpl in Hs. rewrite Ha in Hs. injection Hs as <-.
  by eapply list_elem_of_lookup_2.
Qed.

Lemma assignment_capacity t :
  Z.of_nat (occurrences a t) ≤ MAX_STUDENTS_PER_TOPIC.
Proof.
  rewrite (occurrences_via_items a items t Hnames assignment_dom).
  destruct (decide (t ∈ topics)) as [Hin|Hnin].
  - apply list_elem_of_lookup in Hin as [j Hj].
    pose proof Hsat as Hsat'.
    apply satisfies_model_of in Hsat' as (_ & _ & H2 & _); [|done..].
    destruct (decide (n = 0%nat)) as [Hn|Hn].
    { destruct items; [|done]. simpl. unfold MAX_STUDENTS_PER_TOPIC. lia. }
    specialize (H2 Hn j (lookup_lt_Some _ _ _ Hj)).
    etrans; [|exact H2].
    rewrite <- list_fmap_compose, <- imap_seq_fmap.
    apply count_le_sum_imap. intros i [s votes] Hi. simpl.
    pose proof (solution_bool_value i j (lookup_lt_Some _ _ _ Hi)
                  (lookup_lt_Some _ _ _ Hj)) as Hv.
    split; [lia|]. intros Hs.
    destruct (solution_row i s votes Hi) as (j' & t' & Hj' & Htrue & Ha).
    rewrite Ha in Hs. injection Hs as ->.
    assert (j' = j) as -> by (by eapply NoDup_lookup).
    unfold BooleanValue in Htrue. apply bool_decide_eq_true in Htrue. lia.
  - rewrite (proj2 (filter_nil_Forall _ _)).
    { simpl. unfold MAX_STUDENTS_PER_TOPIC. lia. }
    apply Forall_forall. intros [s votes] _ Hs. simpl in Hs.
    by apply Hnin, (assignment_in_range s).
Qed.

Lemma solution_objective :
  objective_value (model_of items topics) sol
  = sum ((λ kv, joy_of a kv.1 kv.2) <$> items).
Proof.
  unfold objective_value, model_of. simpl. f_equal.
  apply list_eq. intros i. rewrite !list_lookup_fmap.
  unfold joys_of. rewrite list_lookup_imap, list_lookup_fmap.
  destruct (items !! i) as [[s votes]|] eqn:Hi; [simpl|done].
  destruct (solution_row i s votes Hi) as (j & t & Hj & Htrue & Ha).
  unfold joy_of. rewrite Ha. f_equal.
  apply satisfies_model_of in Hsat as (_ & _ & _ & H3); [|done..].
  rewrite length_fmap. by apply (H3 i j s votes t).
Qed.

End solution_to_assignment.

(** ** From an assignment to a solution of the model *)

Lemma length_filter_imap {A B} (P : B → Prop) (Q : A → Prop)
    `{!∀ y, Decision (P y), !∀ x, Decision (Q x)}
    (g : nat → A → B) (l : list A) :
  (∀ j x, l !! j = Some x → P (g j x) ↔ Q x) →
  length (filter P (imap g l)) = length (filter Q l).
Proof.
  revert g. induction l as [|x l IH]; intros g Hg; [done|].
  rewrite imap_cons, !filter_cons.
  pose proof (IH (g ∘ S) (λ j y Hj, Hg (S j) y Hj)) as IH'.
  pose proof (Hg 0%nat x eq_refl) as Hhd.
  destruct (decide (P (g 0%nat x))), (decide (Q x)); simpl;
    rewrite ?IH'; tauto.
Qed.

Lemma count_NoDup {A} `{EqDecision A} (l : list A) (x : A) :
  NoDup l → x ∈ l → length (filter (λ y, y = x) l) = 1%nat.
Proof.
  induction 1 as [|y l Hy Hnd IH]; intros Hin; [by apply elem_of_nil in Hin|].
  rewrite filter_cons. destruct (decide (y = x)) as [->|Hne].
  - simpl. f_equal. apply length_zero_iff_nil, filter_nil_Forall.
    apply Forall_forall. by intros z Hz ->.
  - apply IH. by apply elem_of_cons in Hin as [->|].
Qed.

Section assignment_to_solution.
Context (items : list (string * list Vote)) (topics : list Z).
Context (Hnames : NoDup (items.*1)) (Htopics : NoDup topics).
Context (a : gmap string Z).
Context (Hdom : ∀ s, is_Some (a !! s) ↔ s ∈ items.*1).
Context (Hrange : ∀ s t, a !! s = Some t → t ∈ topics).
Context (Hcap : ∀ t, Z.of_nat (occurrences a t) ≤ MAX_STUDENTS_PER_TOPIC).
Context (Hjoy : ∀ s votes, (s, votes) ∈ items →
                  0 ≤ joy_of a s votes ≤ MAX_POINTS_PER_STUDENT).

Local Abbreviation n := (length items).
Local Abbreviation m := (length topics).
Local Abbreviation sol := (solution_of a items topics).
Local Abbreviation rows :=
  ((λ kv : string * list Vote,
      (λ t, indicator (a !! kv.1 = Some t)) <$> topics) <$> items).

Lemma rows_same_length : Forall (λ l : list Z, length l = m) rows.
Proof.
  apply Forall_fmap, Forall_forall. intros kv _. simpl. by rewrite length_fmap.
Qed.

Lemma length_rows : length (mjoin rows) = (n * m)%nat.
Proof.
  rewrite length_join, (sum_list_fmap_same m) by apply rows_same_length.
  by rewrite length_fmap.
Qed.

Lemma solution_of_bool i j s votes t :
  items !! i = Some (s, votes) → topics !! j = Some t →
  Value sol (bool_var m i j) = indicator (a !! s = Some t).
Proof.
  intros Hi Hj. unfold Value, solution_of, bool_var.
  apply list_lookup_total_correct.
  pose proof (lookup_lt_Some _ _ _ Hi). pose proof (lookup_lt_Some _ _ _ Hj).
  rewrite lookup_app_l by (rewrite length_rows; nia).
  apply (join_lookup_Some_same_length' m); [apply rows_same_length|done|].
  eexists. rewrite list_lookup_fmap, Hi. split; [done|]. simpl.
  by rewrite list_lookup_fmap, Hj.
Qed.

Lemma solution_of_joy i s votes :
  items !! i = Some (s, votes) →
  Value sol (joy_var n m i) = joy_of a s votes.
Proof.
  intros Hi. unfold Value, solution_of, joy_var.
  apply list_lookup_total_correct.
  rewrite lookup_app_r by (rewrite length_rows; lia).
  rewrite length_rows, Nat.add_comm, Nat.add_sub.
  by rewrite list_lookup_fmap, Hi.
Qed.

Lemma solution_of_true i j s votes t :
  items !! i = Some (s, votes) → topics !! j = Some t →
  BooleanValue sol (bool_var m i j) = true ↔ a !! s = Some t.
Proof.
  intros Hi Hj. unfold BooleanValue.
  rewrite (solution_of_bool i j s votes t Hi Hj), bool_decide_eq_true.
  unfold indicator. destruct (decide (a !! s = Some t)); split; done.
Qed.

Lemma solution_of_satisfies : satisfies (model_of items topics) sol.
Proof.
  apply satisfies_model_of; [done..|]. split_and!.
  - unfold solution_of. apply Forall2_app.
    + apply Forall2_replicate_r; [apply length_rows|].
      apply Forall_join, Forall_fmap, Forall_forall. intros kv _. simpl.
      apply Forall_fmap, Forall_forall. intros t _. simpl.
      unfold indicator, in_domain. simpl. case_decide; lia.
    + apply Forall2_replicate_r; [by rewrite length_fmap|].
      apply Forall_fmap, Forall_forall. intros [s votes] Hin.
      apply (Hjoy s votes Hin).
  - intros i Hi.
    destruct (lookup_lt_is_Some_2 items i Hi) as [[s votes] Hs].
    assert (is_Some (a !! s)) as [t0 Ht0].
    { apply Hdom. apply list_elem_of_fmap. exists (s, votes).
      split; [done|]. by eapply list_elem_of_lookup_2. }
    rewrite <- (imap_seq_fmap (bool_var m i) topics).
    rewrite (length_filter_imap _ (λ t, t = t0)).
    + apply count_NoDup; [done|]. by apply (Hrange s).
    + intros j t Hj. rewrite (solution_of_true i j s votes t Hs Hj).
      rewrite Ht0. split; congruence.
  - intros Hn j Hj.
    destruct (lookup_lt_is_Some_2 topics j Hj) as [t Ht].
    rewrite <- list_fmap_compose, <- imap_seq_fmap.
    rewrite (count_eq_sum_imap (λ kv, a !! kv.1 = Some t)).
    + rewrite <- (occurrences_via_items a items t Hnames Hdom). apply Hcap.
    + intros i [s votes] Hi. simpl.
      apply (solution_of_bool i j s votes t Hi Ht).
  - intros i j s votes t Hi Hj Htrue.
    apply (solution_of_true i j s votes t Hi Hj) in Htrue.
    rewrite (solution_of_joy i s votes Hi). unfold joy_of. by rewrite Htrue.
Qed.

Lemma solution_of_objective :
  objective_value (model_of items topics) sol
  = sum ((λ kv, joy_of a kv.1 kv.2) <$> items).
Proof.
  unfold objective_value, model_of. simpl. f_equal.
  apply list_eq. intros i. rewrite !list_lookup_fmap.
  unfold joys_of. rewrite list_lookup_imap, list_lookup_fmap.
  destruct (items !! i) as [[s votes]|] eqn:Hi; [simpl|done].
  f_equal. rewrite length_fmap. apply (solution_of_joy i s votes Hi).
Qed.

End assignment_to_solution.

(** ** Votes *)

Lemma topic2pref_snoc votes v :
  topic2pref (votes ++ [v]) = <[topic_id v := preference v]> (topic2pref votes).
Proof. unfold topic2pref. by rewrite foldl_app. Qed.

(** The dictionary holds, for each topic, the weight of the last vote that
    names it. *)
Lemma topic2pref_lookup votes t :
  topic2pref votes !! t = preference <$> last_vote_for votes t.
Proof.
  unfold last_vote_for.
  induction votes as [|v votes IH] using rev_ind; [done|].
  rewrite topic2pref_snoc, filter_app, filter_cons, filter_nil.
  destruct (decide (topic_id v = t)) as [<-|Hne].
  - by rewrite lookup_insert_eq, last_snoc.
  - by rewrite lookup_insert_ne, app_nil_r.
Qed.

Lemma topic_value_last votes t :
  topic_value votes t
  = match last_vote_for votes t with
    | Some v => preference v
    | None => 0
    end.
Proof.
  unfold topic_value. rewrite topic2pref_lookup.
  by destruct (last_vote_for votes t).
Qed.

Lemma last_vote_for_elem votes t v :
  last_vote_for votes t = Some v → v ∈ votes ∧ topic_id v = t.
Proof.
  unfold last_vote_for. intros Hlast%last_Some_elem_of.
  apply list_elem_of_filter in Hlast as [? ?]. done.
Qed.

(** A topic nobody voted for is worth [0]. *)
Lemma topic_value_unvoted votes t :
  t ∉ topic_id <$> votes → topic_value votes t = 0.
Proof.
  intros Hnin. rewrite topic_value_last.
  destruct (last_vote_for votes t) as [v|] eqn:Hv; [|done].
  apply last_vote_for_elem in Hv as [Hin <-].
  exfalso. apply Hnin. by apply list_elem_of_fmap_2.
Qed.

(** Without repeated topics, a topic is worth the weight of its vote. *)
Lemma topic_value_voted votes v :
  NoDup (topic_id <$> votes) → v ∈ votes →
  topic_value votes (topic_id v) = preference v.
Proof.
  intros Hnd Hin. rewrite topic_value_last.
  destruct (last_vote_for votes (topic_id v)) as [v'|] eqn:Hv.
  - apply last_vote_for_elem in Hv as [Hin' Heq].
    apply list_elem_of_lookup in Hin as [i Hi].
    apply list_elem_of_lookup in Hin' as [i' Hi'].
    assert (i' = i) as ->.
    { apply (NoDup_lookup (topic_id <$> votes) i' i (topic_id v)); [done|..].
      - by rewrite list_lookup_fmap, Hi', <- Heq.
      - by rewrite list_lookup_fmap, Hi. }
    congruence.
  - unfold last_vote_for in Hv. apply last_None in Hv.
    assert (v ∈ filter (λ v' : Vote, topic_id v' = topic_id v) votes) as Hf.
    { by apply list_elem_of_filter. }
    rewrite Hv in Hf. by apply elem_of_nil in Hf.
Qed.

Lemma topic_value_bounds votes t :
  Forall (λ v, 0 ≤ preference v) votes →
  sum (preference <$> votes) = MAX_POINTS_PER_STUDENT →
  0 ≤ topic_value votes t ≤ MAX_POINTS_PER_STUDENT.
Proof.
  intros Hnn Hsum. rewrite topic_value_last.
  destruct (last_vote_for votes t) as [v|] eqn:Hv;
    [|unfold MAX_POINTS_PER_STUDENT; lia].
  apply last_vote_for_elem in Hv as [Hin _].
  rewrite Forall_forall in Hnn. split; [by apply Hnn|].
  rewrite <- Hsum. apply sum_elem_le.
  - apply Forall_fmap, Forall_forall. intros v' Hv'. by apply Hnn.
  - by apply list_elem_of_fmap_2.
Qed.

Lemma last_vote_for_cons v votes t :
  last_vote_for (v :: votes) t
  = match last_vote_for votes t with
    | Some v' => Some v'
    | None => if decide (topic_id v = t) then Some v else None
    end.
Proof.
  unfold last_vote_for. rewrite filter_cons.
  destruct (decide (topic_id v = t)); [|by destruct (last _)].
  rewrite last_cons. by destruct (last _).
Qed.

Lemma last_vote_for_None votes t :
  last_vote_for votes t = None ↔ t ∉ topic_id <$> votes.
Proof.
  unfold last_vote_for. rewrite last_None, filter_nil_Forall, Forall_forall.
  rewrite list_elem_of_fmap. split.
  - intros Hall (v & -> & Hin). by apply (Hall v).
  - intros Hnin v Hin Heq. apply Hnin. by exists v.
Qed.

(** Dropping the earlier votes of a repeated topic changes no last vote. *)
Lemma last_vote_for_keep_last votes t :
  last_vote_for (keep_last_votes votes) t = last_vote_for votes t.
Proof.
  induction votes as [|v votes IH]; [done|]. simpl.
  rewrite last_vote_for_cons.
  destruct (decide (topic_id v ∈ topic_id <$> votes)) as [Hin|Hnin].
  - rewrite IH. destruct (last_vote_for votes t) eqn:Hl; [done|].
    apply last_vote_for_None in Hl. case_decide; [|done]. by subst.
  - by rewrite last_vote_for_cons, IH.
Qed.

Lemma topic_value_keep_last votes t :
  topic_value (keep_last_votes votes) t = topic_value votes t.
Proof. by rewrite !topic_value_last, last_vote_for_keep_last. Qed.

Lemma keep_last_votes_topics votes v :
  v ∈ keep_last_votes votes → v ∈ votes.
Proof.
  induction votes as [|v' votes IH]; [done|]. simpl.
  case_decide; [intros ?; right; auto|].
  intros [->|?]%elem_of_cons; [by left|right; auto].
Qed.

Lemma keep_last_votes_NoDup votes :
  NoDup (topic_id <$> keep_last_votes votes).
Proof.
  induction votes as [|v votes IH]; [constructor|]. simpl.
  case_decide as Hin; [done|]. rewrite fmap_cons. constructor; [|done].
  intros Hin'. apply Hin.
  apply list_elem_of_fmap in Hin' as (v' & -> & Hv').
  by apply list_elem_of_fmap_2, keep_last_votes_topics.
Qed.

(** A vote for a topic outside the range plays no part in the value of any
    topic of the model. *)
Lemma topic_value_in_range votes tc t :
  0 ≤ t < tc →
  topic_value (filter (in_range tc) votes) t = topic_value votes t.
Proof.
  intros Ht. rewrite !topic_value_last. unfold last_vote_for.
  rewrite list_filter_filter.
  rewrite (filter_ext_in _ (λ v, topic_id v = t)); [done|].
  intros v _. unfold in_range. split; [tauto|]. intros <-. done.
Qed.

(** ** The run as a whole *)

Lemma names_of_students (raw : gmap string (list Vote)) s :
  s ∈ (map_to_list raw).*1 ↔ is_Some (raw !! s).
Proof.
  rewrite list_elem_of_fmap. split.
  - intros ([s' votes] & -> & Hin). apply elem_of_map_to_list in Hin. eauto.
  - intros [votes Hs]. exists (s, votes). split; [done|].
    by apply elem_of_map_to_list.
Qed.

Lemma joy_of_bounds (raw : gmap string (list Vote)) (a : gmap string Z) s votes :
  nonneg_weights raw → sums_to_budget raw → (s, votes) ∈ map_to_list raw →
  0 ≤ joy_of a s votes ≤ MAX_POINTS_PER_STUDENT.
Proof.
  intros Hnn Hsum Hin%elem_of_map_to_list. unfold joy_of.
  destruct (a !! s) as [t|]; [|unfold MAX_POINTS_PER_STUDENT; lia].
  apply topic_value_bounds; [by eapply Hnn|by eapply Hsum].
Qed.

Lemma feasible_dom p a :
  feasible p a → ∀ s, is_Some (a !! s) ↔ s ∈ (map_to_list (students p)).*1.
Proof.
  intros (Hdom & _ & _) s.
  rewrite names_of_students, <- !elem_of_dom. by rewrite Hdom.
Qed.

Lemma feasible_range p a :
  feasible p a → ∀ s t, a !! s = Some t → t ∈ seqZ 0 (topics_count p).
Proof.
  intros (_ & Hrange & _) s t Hs. apply elem_of_seqZ.
  specialize (Hrange s t Hs). lia.
Qed.

(** A feasible assignment, with joys inside the variables' domain, is a
    solution of the model, and its objective is its total reward. *)
Lemma feasible_solution raw tc a :
  nonneg_weights raw → sums_to_budget raw →
  feasible (mkPreferences raw tc) a →
  satisfies (model_of (map_to_list raw) (seqZ 0 tc))
            (solution_of a (map_to_list raw) (seqZ 0 tc)) ∧
  objective_value (model_of (map_to_list raw) (seqZ 0 tc))
                  (solution_of a (map_to_list raw) (seqZ 0 tc))
  = total_reward (mkPreferences raw tc) a.
Proof.
  intros Hnn Hsum Hfeas.
  pose proof (feasible_dom _ _ Hfeas) as Hdom.
  pose proof (feasible_range _ _ Hfeas) as Hrange.
  destruct Hfeas as (_ & _ & Hcap). simpl in *.
  split.
  - apply solution_of_satisfies; try done.
    + apply NoDup_fst_map_to_list.
    + apply NoDup_seqZ.
    + intros s votes Hin. by apply (joy_of_bounds raw).
  - apply solution_of_objective.
Qed.

(** A solution of the model reads back as a feasible assignment whose total
    reward is the objective. *)
Lemma solution_feasible raw tc sol :
  satisfies (model_of (map_to_list raw) (seqZ 0 tc)) sol →
  feasible (mkPreferences raw tc)
           (read_solution sol (thesis_of (map_to_list raw).*1 (seqZ 0 tc))) ∧
  objective_value (model_of (map_to_list raw) (seqZ 0 tc)) sol
  = total_reward (mkPreferences raw tc)
      (read_solution sol (thesis_of (map_to_list raw).*1 (seqZ 0 tc))).
Proof.
  intros Hsat.
  pose proof (NoDup_fst_map_to_list raw) as Hnames.
  pose proof (NoDup_seqZ 0 tc) as Htopics.
  split; [split_and!|].
  - simpl. apply set_eq. intros s. rewrite !elem_of_dom.
    rewrite <- names_of_students.
    by apply (assignment_dom (map_to_list raw) (seqZ 0 tc)).
  - intros s t Hs. simpl.
    apply (assignment_in_range _ _ Hnames Htopics sol Hsat) in Hs.
    apply elem_of_seqZ in Hs. lia.
  - by apply (assignment_capacity (map_to_list raw) (seqZ 0 tc)).
  - by apply solution_objective.
Qed.

(** Weights of a valid list lie in [0, MAX_POINTS_PER_STUDENT]: they fit. *)
Lemma small_is_int64 c : 0 ≤ c ≤ MAX_POINTS_PER_STUDENT → is_int64 c.
Proof.
  unfold is_int64, INT64_MIN, INT64_MAX, MAX_POINTS_PER_STUDENT. lia.
Qed.

Lemma nonneg_values_fit raw tc :
  nonneg_weights raw → sums_to_budget raw →
  values_fit (mkPreferences raw tc).
Proof.
  intros Hnn Hsum s votes t Hs _. simpl in Hs.
  apply small_is_int64, topic_value_bounds; [by eapply Hnn|by eapply Hsum].
Qed.

Lemma values_fit_empty tc : values_fit (mkPreferences ∅ tc).
Proof. intros s votes t Hs. simpl in Hs. by rewrite lookup_empty in Hs. Qed.

Section run.
Context {solver : CpSolver}.

Lemma solve_checked raw tc :
  sums_to_budget raw → values_fit (mkPreferences raw tc) →
  solve raw tc
  = solve_model (model_of (map_to_list raw) (seqZ 0 tc))
                (thesis_of (map_to_list raw).*1 (seqZ 0 tc)).
Proof.
  intros Hsum Hfit. unfold solve.
  rewrite Preferences_new_Ok by done. simpl.
  by rewrite build_model_fits.
Qed.

Lemma solve_rejected raw tc :
  ¬ sums_to_budget raw →
  ∃ locs, locs ≠ [] ∧ solve raw tc = Raise (ValidationError locs).
Proof.
  intros Hsum. destruct (Preferences_new_Raise raw tc Hsum) as (locs & ? & Hr).
  exists locs. split; [done|]. unfold solve. by rewrite Hr.
Qed.

(** A value that does not fit stops the run in [build_model], before the
    solver is called. *)
Lemma solve_overflow raw tc :
  sums_to_budget raw → ¬ values_fit (mkPreferences raw tc) →
  ∃ s votes t,
    raw !! s = Some votes ∧ 0 ≤ t < tc ∧ ¬ is_int64 (topic_value votes t) ∧
    solve raw tc = Raise (NotInt64 (topic_value votes t)).
Proof.
  intros Hsum Hfit.
  destruct (build_model_overflow _ Hfit) as (s & votes & t & Hs & Ht & Hbig & Hr).
  exists s, votes, t. refine (conj Hs (conj Ht (conj Hbig _))).
  unfold solve. rewrite Preferences_new_Ok by done. simpl. by rewrite Hr.
Qed.

Lemma solve_Ok_fits raw tc a :
  solve raw tc = Ok a →
  sums_to_budget raw ∧ values_fit (mkPreferences raw tc).
Proof.
  intros Hok.
  destruct (decide (sums_to_budget raw)) as [Hsum|Hsum].
  - split; [done|].
    destruct (decide (values_fit (mkPreferences raw tc))) as [|Hfit]; [done|].
    destruct (solve_overflow raw tc Hsum Hfit) as (? & ? & ? & _ & _ & _ & Hr).
    congruence.
  - destruct (solve_rejected raw tc Hsum) as (locs & _ & Hr). congruence.
Qed.

Lemma solve_Ok_inv raw tc a :
  solve raw tc = Ok a →
  sums_to_budget raw ∧
  status (Solve (model_of (map_to_list raw) (seqZ 0 tc))) = OPTIMAL ∧
  a = read_solution
        (solution (Solve (model_of (map_to_list raw) (seqZ 0 tc))))
        (thesis_of (map_to_list raw).*1 (seqZ 0 tc)).
Proof.
  intros Hok. destruct (solve_Ok_fits raw tc a Hok) as [Hsum Hfit].
  split; [done|]. rewrite solve_checked in Hok by done.
  unfold solve_model in Hok. case_decide as Hst; [done|].
  injection Hok as <-. split; [|done].
  by destruct (decide (status (Solve (model_of (map_to_list raw) (seqZ 0 tc)))
                       = OPTIMAL)).
Qed.

Lemma solve_optimal_status raw tc :
  sums_to_budget raw → values_fit (mkPreferences raw tc) →
  status (Solve (model_of (map_to_list raw) (seqZ 0 tc))) = OPTIMAL →
  solve raw tc
  = Ok (read_solution
          (solution (Solve (model_of (map_to_list raw) (seqZ 0 tc))))
          (thesis_of (map_to_list raw).*1 (seqZ 0 tc))).
Proof.
  intros Hsum Hfit Hst. rewrite solve_checked by done. unfold solve_model.
  by rewrite decide_False by (by rewrite Hst; intros ?).
Qed.

Lemma solve_no_solution raw tc :
  sums_to_budget raw → values_fit (mkPreferences raw tc) →
  (∀ sol, ¬ satisfies (model_of (map_to_list raw) (seqZ 0 tc)) sol) →
  solve raw tc = Raise (ValueError "Optimal solution not found").
Proof.
  intros Hsum Hfit Hno. rewrite solve_checked by done. unfold solve_model.
  case_decide as Hst; [done|]. exfalso.
  assert (status (Solve (model_of (map_to_list raw) (seqZ 0 tc))) = OPTIMAL)
    as Hopt by (by destruct (decide (status (Solve (model_of (map_to_list raw)
                                        (seqZ 0 tc))) = OPTIMAL))).
  apply Solve_optimal in Hopt as [Hsat _]. by apply (Hno _ Hsat).
Qed.

End run.

(** ** Enough topics: an assignment exists *)

Lemma two_per_topic_lookup items i s votes :
  NoDup (items.*1) → items !! i = Some (s, votes) →
  two_per_topic items !! s = Some (Z.of_nat (i / 2)).
Proof.
  intros Hnd Hi. unfold two_per_topic.
  apply elem_of_list_to_map.
  - rewrite fmap_imap, (imap_ext _ (λ _ kv, kv.1)) by done.
    by rewrite imap_ignore_index.
  - apply list_elem_of_lookup. exists i. by rewrite list_lookup_imap, Hi.
Qed.

Lemma two_per_topic_dom items s :
  NoDup (items.*1) → is_Some (two_per_topic items !! s) ↔ s ∈ items.*1.
Proof.
  intros Hnd. split.
  - intros [t Ht]. unfold two_per_topic in Ht.
    apply elem_of_list_to_map_2 in Ht.
    apply list_elem_of_lookup in Ht as [i Hi].
    rewrite list_lookup_imap in Hi.
    destruct (items !! i) as [kv|] eqn:Hkv; [|done]. injection Hi as <- _.
    apply list_elem_of_fmap_2. by eapply list_elem_of_lookup_2.
  - intros ([s' votes] & -> & Hin)%list_elem_of_fmap.
    apply list_elem_of_lookup in Hin as [i Hi]. simpl.
    rewrite (two_per_topic_lookup items i s' votes) by done. eauto.
Qed.

Lemma halves_at_most_two (n : nat) (t : Z) :
  (length (filter (λ i : nat, Z.of_nat (i / 2) = t) (seq 0 n)) ≤ 2)%nat.
Proof.
  set (k := Z.to_nat t).
  change 2%nat with (length [2 * k; 2 * k + 1]%nat).
  apply submseteq_length, NoDup_submseteq.
  - apply NoDup_filter, NoDup_seq.
  - intros i [Hi _]%list_elem_of_filter.
    assert ((i / 2)%nat = k) as Hk.
    { unfold k. rewrite <- Hi. by rewrite Nat2Z.id. }
    pose proof (Nat.div_mod_eq i 2). pose proof (Nat.mod_upper_bound i 2).
    assert (i = (2 * k)%nat ∨ i = (2 * k + 1)%nat) as [->| ->] by lia.
    + by left.
    + right. by left.
Qed.

Lemma two_per_topic_feasible raw tc :
  Z.of_nat (size raw) ≤ tc * MAX_STUDENTS_PER_TOPIC →
  feasible (mkPreferences raw tc) (two_per_topic (map_to_list raw)).
Proof.
  intros Hsize. rewrite <- length_map_to_list in Hsize.
  pose proof (NoDup_fst_map_to_list raw) as Hnd.
  assert (∀ s, is_Some (two_per_topic (map_to_list raw) !! s)
               ↔ s ∈ (map_to_list raw).*1) as Hdom.
  { intros s. by apply two_per_topic_dom. }
  split_and!; simpl.
  - apply set_eq. intros s. rewrite !elem_of_dom, Hdom.
    apply names_of_students.
  - intros s t Hs.
    assert (s ∈ (map_to_list raw).*1) as Hin by (apply Hdom; eauto).
    apply list_elem_of_fmap in Hin as ([s' votes] & -> & Hin).
    apply list_elem_of_lookup in Hin as [i Hi]. cbn [fst] in Hs.
    rewrite (two_per_topic_lookup _ i s' votes) in Hs by done.
    injection Hs as <-. apply lookup_lt_Some in Hi.
    pose proof (Nat.div_mod_eq i 2) as Hdiv.
    change (Nat.divmod i 1 0 1).1 with (i / 2)%nat.
    remember (i / 2)%nat as q. remember (i mod 2)%nat as r.
    unfold MAX_STUDENTS_PER_TOPIC in Hsize. lia.
  - intros t. rewrite (occurrences_via_items _ (map_to_list raw) t Hnd Hdom).
    rewrite <- (length_filter_imap (λ i : nat, Z.of_nat (i / 2) = t) _
                  (λ i _, i)).
    + rewrite imap_seq_fmap, list_fmap_id.
      pose proof (halves_at_most_two (length (map_to_list raw)) t).
      unfold MAX_STUDENTS_PER_TOPIC. lia.
    + intros i [s votes] Hi. cbn [fst].
      rewrite (two_per_topic_lookup _ i s votes) by done.
      split; congruence.
Qed.

(** ** Too many students: no assignment exists *)

Lemma sum_fmap_add {A} (f g : A → Z) (l : list A) :
  sum ((λ x, f x + g x) <$> l) = sum (f <$> l) + sum (g <$> l).
Proof.
  induction l as [|x l IH]; [done|].
  rewrite !fmap_cons, !sum_cons, IH. lia.
Qed.

Lemma sum_fmap_le {A} (f : A → Z) (c : Z) (l : list A) :
  (∀ x, x ∈ l → f x ≤ c) → sum (f <$> l) ≤ c * Z.of_nat (length l).
Proof.
  induction l as [|x l IH]; intros Hf; [change (0 ≤ c * 0); lia|].
  rewrite fmap_cons, sum_cons.
  specialize (IH (λ y Hy, Hf y (list_elem_of_further _ _ _ Hy))).
  specialize (Hf x (list_elem_of_here _ _)). simpl length. lia.
Qed.

Lemma sum_indicator {A} (P : A → Prop) `{∀ x, Decision (P x)} (l : list A) :
  sum ((λ x, indicator (P x)) <$> l) = Z.of_nat (length (filter P l)).
Proof.
  induction l as [|x l IH]; [done|].
  rewrite fmap_cons, sum_cons, filter_cons, IH. unfold indicator.
  destruct (decide (P x)); simpl length; lia.
Qed.

(** Counting the students topic by topic counts every student once. *)
Lemma count_by_topic (a : gmap string Z) (items : list (string * list Vote))
    (topics : list Z) :
  NoDup topics →
  (∀ kv, kv ∈ items → ∃ t, t ∈ topics ∧ a !! kv.1 = Some t) →
  sum ((λ t, Z.of_nat (length (filter (λ kv, a !! kv.1 = Some t) items)))
         <$> topics)
  = Z.of_nat (length items).
Proof.
  intros Hnd. induction items as [|kv items IH]; intros Hall.
  - clear Hnd Hall. induction topics as [|t topics IHt]; [done|].
    by rewrite fmap_cons, sum_cons, IHt.
  - rewrite (list_fmap_ext _
       (λ t, indicator (a !! kv.1 = Some t)
             + Z.of_nat (length (filter (λ kv, a !! kv.1 = Some t) items)))).
    2:{ intros i t _. rewrite filter_cons. unfold indicator.
        destruct (decide (a !! kv.1 = Some t)); simpl length; lia. }
    rewrite sum_fmap_add, IH by (intros kv' Hkv'; apply Hall; by right).
    destruct (Hall kv) as (t0 & Ht0 & Ha); [by left|].
    rewrite (list_fmap_ext _ (λ t, indicator (t = t0))).
    2:{ intros i t _. unfold indicator. rewrite Ha.
        destruct (decide (Some t0 = Some t)), (decide (t = t0)); congruence. }
    rewrite sum_indicator, count_NoDup by done. simpl length. lia.
Qed.

Lemma feasible_enough_topics p a :
  feasible p a →
  Z.of_nat (size (students p))
  ≤ Z.of_nat (Z.to_nat (topics_count p)) * MAX_STUDENTS_PER_TOPIC.
Proof.
  intros Hfeas.
  pose proof (feasible_dom _ _ Hfeas) as Hdom.
  pose proof (feasible_range _ _ Hfeas) as Hrange.
  destruct Hfeas as (_ & _ & Hcap).
  pose proof (NoDup_fst_map_to_list (students p)) as Hnd.
  rewrite <- length_map_to_list.
  rewrite <- (count_by_topic a _ (seqZ 0 (topics_count p))).
  - rewrite <- (length_seqZ 0), Z.mul_comm. apply sum_fmap_le.
    intros t _. rewrite <- (occurrences_via_items a _ t Hnd Hdom). apply Hcap.
  - apply NoDup_seqZ.
  - intros kv Hkv.
    assert (is_Some (a !! kv.1)) as [t Ht].
    { apply Hdom. by apply list_elem_of_fmap_2. }
    exists t. split; [by eapply Hrange|done].
Qed.

Lemma too_many_students_infeasible raw tc a :
  0 ≤ tc → tc * MAX_STUDENTS_PER_TOPIC < Z.of_nat (size raw) →
  ¬ feasible (mkPreferences raw tc) a.
Proof.
  intros Htc Hmany Hfeas. apply feasible_enough_topics in Hfeas.
  simpl in Hfeas. rewrite Z2Nat.id in Hfeas by done. lia.
Qed.

(** ** Feasibility can be decided *)

Lemma occurrences_unused (a : gmap string Z) (t : Z) :
  t ∉ (map_to_list a).*2 → occurrences a t = 0%nat.
Proof.
  intros Hnin. unfold occurrences.
  rewrite (proj2 (filter_nil_Forall _ _)); [done|].
  apply Forall_forall. intros kv Hkv Heq. apply Hnin.
  rewrite <- Heq. by apply list_elem_of_fmap_2.
Qed.

Lemma capacity_on_values (a : gmap string Z) :
  (∀ t, Z.of_nat (occurrences a t) ≤ MAX_STUDENTS_PER_TOPIC) ↔
  Forall (λ kv, Z.of_nat (occurrences a kv.2) ≤ MAX_STUDENTS_PER_TOPIC)
         (map_to_list a).
Proof.
  split.
  - intros Hcap. apply Forall_forall. intros kv _. apply Hcap.
  - intros Hall t. destruct (decide (t ∈ (map_to_list a).*2)) as [Hin|Hnin].
    + apply list_elem_of_fmap in Hin as (kv & -> & Hkv).
      rewrite Forall_forall in Hall. by apply Hall.
    + rewrite occurrences_unused by done. unfold MAX_STUDENTS_PER_TOPIC. lia.
Qed.

#[global] Instance feasible_dec p a : Decision (feasible p a).
Proof.
  refine (cast_if (decide
    (dom a = dom (students p) ∧
     map_Forall (λ _ t, 0 ≤ t < topics_count p) a ∧
     Forall (λ kv, Z.of_nat (occurrences a kv.2) ≤ MAX_STUDENTS_PER_TOPIC)
            (map_to_list a))));
    unfold feasible; rewrite capacity_on_values; unfold map_Forall in *; tauto.
Defined.

#[global] Instance sums_to_budget_dec raw : Decision (sums_to_budget raw).
Proof. unfold sums_to_budget. apply _. Defined.

#[global] Instance nonneg_weights_dec raw : Decision (nonneg_weights raw).
Proof.
  refine (cast_if (decide
    (map_Forall (λ _ votes, Forall (λ v, 0 ≤ preference v) votes) raw)));
    unfold nonneg_weights, map_Forall in *; tauto.
Defined.

#[global] Instance in_range_dec tc v : Decision (in_range tc v).
Proof. unfold in_range. apply _. Defined.

(** Closed facts are checked by evaluation. *)
Ltac by_evaluation := apply (bool_decide_unpack _); vm_compute; exact I.

Lemma model_of_ext (f : list Vote → list Vote) items topics :
  (∀ kv t, kv ∈ items → t ∈ topics →
     topic_value (f kv.2) t = topic_value kv.2 t) →
  model_of (prod_map id f <$> items) topics = model_of items topics.
Proof.
  intros Hf. unfold model_of, joy_constraints. rewrite !length_fmap.
  rewrite <- list_fmap_compose.
  rewrite (list_fmap_ext (fst ∘ prod_map id f) fst items) by (by intros ? []).
  rewrite imap_fmap. do 4 f_equal.
  apply imap_ext. intros i [s votes] Hi. apply imap_ext. intros j t Hj. simpl.
  f_equal. apply (Hf (s, votes)); by eapply list_elem_of_lookup_2.
Qed.

Lemma omap_fmap_ext {A A' B} (h : A → A') (f : A' → option B)
    (g : A → option B) (l : list A) :
  (∀ x, x ∈ l → f (h x) = g x) → omap f (h <$> l) = omap g l.
Proof.
  induction l as [|x l IH]; intros Hfg; [done|].
  change (omap f (h <$> x :: l))
    with (match f (h x) with
          | Some y => y :: omap f (h <$> l)
          | None => omap f (h <$> l)
          end).
  rewrite Hfg by (by left). rewrite IH; [done|].
  intros x' Hx'. apply Hfg. by right.
Qed.

Lemma build_error_ext (f : list Vote → list Vote) items topics :
  (∀ kv t, kv ∈ items → t ∈ topics →
     topic_value (f kv.2) t = topic_value kv.2 t) →
  build_error (prod_map id f <$> items) topics = build_error items topics.
Proof.
  intros Hf. unfold build_error. f_equal.
  apply omap_fmap_ext. intros [s votes] Hkv. unfold overflow. f_equal.
  rewrite <- (list_fmap_id topics) at 1.
  apply omap_fmap_ext. intros t Ht. simpl. unfold overflow_at.
  by rewrite (Hf (s, votes)).
Qed.

(** [build_model] looks at the votes only through the values of the topics
    of the range: it returns the same, or raises alike, on vote lists that
    agree on them. *)
Lemma build_model_ext (f : list Vote → list Vote) raw tc :
  (∀ votes t, 0 ≤ t < tc → topic_value (f votes) t = topic_value votes t) →
  build_model (mkPreferences (f <$> raw) tc)
  = build_model (mkPreferences raw tc).
Proof.
  intros Hf. rewrite !build_model_closed. simpl.
  assert (∀ (kv : string * list Vote) t,
            kv ∈ map_to_list raw → t ∈ seqZ 0 tc →
            topic_value (f kv.2) t = topic_value kv.2 t) as Hf'.
  { intros kv t _ Ht%elem_of_seqZ. apply Hf. lia. }
  rewrite map_to_list_fmap, build_error_ext, model_of_ext by done.
  rewrite <- list_fmap_compose.
  by rewrite (list_fmap_ext (fst ∘ prod_map id f) fst) by (by intros ? []).
Qed.

Lemma model_of_keep_last items topics :
  model_of (prod_map id keep_last_votes <$> items) topics
  = model_of items topics.
Proof.
  unfold model_of, joy_constraints. rewrite !length_fmap.
  rewrite <- list_fmap_compose.
  rewrite (list_fmap_ext (fst ∘ prod_map id keep_last_votes) fst items)
    by (by intros ? []).
  rewrite imap_fmap. do 4 f_equal.
  apply imap_ext. intros i [s votes] _. apply imap_ext. intros j t _. simpl.
  by rewrite topic_value_keep_last.
Qed.

Lemma last_vote_for_snoc votes v t :
  last_vote_for (votes ++ [v]) t
  = if decide (topic_id v = t) then Some v else last_vote_for votes t.
Proof.
  unfold last_vote_for. rewrite filter_app, filter_cons, filter_nil.
  case_decide; [apply last_snoc|by rewrite app_nil_r].
Qed.

(** The last vote for a topic stands at or after every vote for it. *)
Lemma last_vote_for_after votes j vj :
  votes !! j = Some vj →
  ∃ v k, last_vote_for votes (topic_id vj) = Some v ∧
         votes !! k = Some v ∧ (j ≤ k)%nat.
Proof.
  revert j. induction votes as [|x votes IH] using rev_ind; intros j Hj; [done|].
  rewrite last_vote_for_snoc.
  destruct (decide (topic_id x = topic_id vj)) as [Heq|Hne].
  - exists x, (length votes). split; [done|]. split.
    + by rewrite lookup_app_r, Nat.sub_diag.
    + apply lookup_lt_Some in Hj. rewrite length_app in Hj. simpl in Hj. lia.
  - apply lookup_app_Some in Hj as [Hj|[Hlen Hj]].
    + destruct (IH j Hj) as (v & k & Hv & Hk & Hle).
      exists v, k. split; [done|]. split; [|done].
      by apply lookup_app_l_Some.
    + apply list_lookup_singleton_Some in Hj as [_ ->]. done.
Qed.

(** * The properties of the specification *)

Section claims.
Context {solver : CpSolver}.

(** C2. When solving returns an assignment, every student of the input is
    a key of it, mapped to one topic of [0, topics_count), no other key
    occurs, and no topic is the value of more than
    [MAX_STUDENTS_PER_TOPIC = 2] students. *)
Theorem solve_assigns_everyone_within_capacity raw tc a :
  solve raw tc = Ok a →
  dom a = dom raw ∧
  (∀ s, s ∈ dom raw → ∃ t, a !! s = Some t ∧ 0 ≤ t < tc) ∧
  (∀ t, Z.of_nat (occurrences a t) ≤ MAX_STUDENTS_PER_TOPIC).
Proof.
  intros (Hsum & Hopt & ->)%solve_Ok_inv.
  apply Solve_optimal in Hopt as [Hsat _].
  destruct (solution_feasible raw tc _ Hsat) as [(Hdom & Hrange & Hcap) _].
  simpl in *. split_and!; [done| |done].
  intros s Hs. rewrite <- Hdom in Hs. apply elem_of_dom in Hs as [t Ht].
  exists t. split; [done|]. by apply (Hrange s).
Qed.

(** C1. For a valid preference set (weights non-negative and summing to the
    budget), when solving returns an assignment, its total reward is at
    least the total reward of every feasible assignment. *)
Theorem solve_maximises_total_reward raw tc a :
  nonneg_weights raw →
  solve raw tc = Ok a →
  ∀ a', feasible (mkPreferences raw tc) a' →
    total_reward (mkPreferences raw tc) a'
    ≤ total_reward (mkPreferences raw tc) a.
Proof.
  intros Hnn (Hsum & Hopt & ->)%solve_Ok_inv a' Hfeas.
  apply Solve_optimal in Hopt as [Hsat Hmax].
  destruct (feasible_solution raw tc a' Hnn Hsum Hfeas) as [Hsat' <-].
  destruct (solution_feasible raw tc _ Hsat) as [_ <-].
  by apply Hmax.
Qed.

Lemma solve_returns raw tc a :
  nonneg_weights raw → sums_to_budget raw →
  feasible (mkPreferences raw tc) a →
  ∃ a', solve raw tc = Ok a'.
Proof.
  intros Hnn Hsum Hfeas.
  destruct (feasible_solution raw tc _ Hnn Hsum Hfeas) as [Hsat _].
  apply Solve_complete in Hsat.
  eexists. apply solve_optimal_status; [done| |done].
  by apply nonneg_values_fit.
Qed.

(** C3. For a valid preference set with at most
    [topics_count * MAX_STUDENTS_PER_TOPIC] students, solving returns an
    assignment: neither the validation nor the solver raises. *)
Theorem solve_succeeds_when_topics_suffice raw tc :
  nonneg_weights raw →
  sums_to_budget raw →
  Z.of_nat (size raw) ≤ tc * MAX_STUDENTS_PER_TOPIC →
  ∃ a, solve raw tc = Ok a.
Proof.
  intros Hnn Hsum Hsize.
  apply (solve_returns raw tc (two_per_topic (map_to_list raw))); [done..|].
  by apply two_per_topic_feasible.
Qed.


(** C10. With no student at all, whatever the topic count, solving returns
    the empty assignment. *)
Theorem no_students_empty_assignment tc : solve ∅ tc = Ok ∅.
Proof.
  assert (sums_to_budget ∅) as Hsum by (by intros s votes Hs).
  assert (nonneg_weights ∅) as Hnn by (by intros s votes Hs).
  assert (feasible (mkPreferences ∅ tc) ∅) as Hfeas.
  { split_and!; [done| |].
    - intros s t Hs. by rewrite lookup_empty in Hs.
    - intros t. unfold occurrences. rewrite map_to_list_empty. simpl.
      unfold MAX_STUDENTS_PER_TOPIC. lia. }
  destruct (feasible_solution ∅ tc ∅ Hnn Hsum Hfeas) as [Hsat _].
  apply Solve_complete in Hsat.
  rewrite (solve_optimal_status ∅ tc Hsum (values_fit_empty tc) Hsat).
  by rewrite map_to_list_empty.
Qed.


End claims.

Lemma not_sums_to_budget raw :
  ¬ sums_to_budget raw ↔
  ∃ s votes, raw !! s = Some votes ∧
             sum (preference <$> votes) ≠ MAX_POINTS_PER_STUDENT.
Proof.
  split.
  - intros Hsum. rewrite <- failed_students_nil in Hsum.
    destruct (filter _ _) as [|[s votes] failed] eqn:Hf; [done|].
    assert ((s, votes) ∈ filter (λ kv : string * list Vote,
                                   check_sum_fails kv.2 = true)
                                (map_to_list raw)) as Hin.
    { rewrite Hf. by left. }
    apply list_elem_of_filter in Hin as [Hfail Hin]. simpl in Hfail.
    exists s, votes. split; [by apply elem_of_map_to_list|].
    by apply check_sum_fails_true.
  - intros (s & votes & Hs & Hne) Hsum. by apply Hne, (Hsum s).
Qed.

(** C5. The construction raises (a [ValidationError], its only error) if
    and only if some student's weights do not sum to
    [MAX_POINTS_PER_STUDENT = 9], and it returns the preference set if and
    only if every student's weights do. *)
Theorem construction_fails_iff_bad_sum raw tc :
  ((∃ e, Preferences_new raw tc = Raise e) ↔
   ∃ s votes, raw !! s = Some votes ∧
              sum (preference <$> votes) ≠ MAX_POINTS_PER_STUDENT) ∧
  (Preferences_new raw tc = Ok (mkPreferences raw tc) ↔
   ∀ s votes, raw !! s = Some votes →
              sum (preference <$> votes) = MAX_POINTS_PER_STUDENT) ∧
  (∀ e, Preferences_new raw tc = Raise e → ∃ locs, e = ValidationError locs).
Proof.
  split_and!.
  - rewrite <- not_sums_to_budget. split.
    + intros [e He] Hsum. by rewrite Preferences_new_Ok in He.
    + intros Hsum.
      destruct (Preferences_new_Raise raw tc Hsum) as (locs & _ & Hr). eauto.
  - split; [|apply Preferences_new_Ok].
    by intros [Hsum _]%Preferences_new_inv.
  - intros e. unfold Preferences_new.
    destruct (filter _ _); [done|]. intros [= <-]. eauto.
Qed.



(** C9. The construction accepts negative weights: a vote list with a
    negative weight is accepted as long as every student's weights sum to
    the budget. *)
Theorem negative_weights_accepted raw tc s votes v :
  raw !! s = Some votes → v ∈ votes → preference v < 0 →
  sums_to_budget raw →
  Preferences_new raw tc = Ok (mkPreferences raw tc).
Proof. intros _ _ _ Hsum. by apply Preferences_new_Ok. Qed.

(** * The properties on concrete inputs, with the exhaustive solver *)

Lemma solve_maximises_total_reward_witness :
  nonneg_weights three_students ∧
  solve (solver := brute_force) three_students 2 = Ok three_students_best ∧
  feasible (mkPreferences three_students 2) three_students_other ∧
  total_reward (mkPreferences three_students 2) three_students_other
  ≤ total_reward (mkPreferences three_students 2) three_students_best.
Proof.
  assert (nonneg_weights three_students) as Hnn by by_evaluation.
  assert (solve (solver := brute_force) three_students 2
          = Ok three_students_best) as Hsolve by (vm_compute; reflexivity).
  assert (feasible (mkPreferences three_students 2) three_students_other)
    as Hfeas by by_evaluation.
  refine (conj Hnn (conj Hsolve (conj Hfeas _))).
  exact (solve_maximises_total_reward (solver := brute_force)
           three_students 2 three_students_best Hnn Hsolve
           three_students_other Hfeas).
Defined.

Lemma solve_assigns_everyone_within_capacity_witness :
  solve (solver := brute_force) three_students 2 = Ok three_students_best ∧
  dom three_students_best = dom three_students ∧
  (∀ s, s ∈ dom three_students →
     ∃ t, three_students_best !! s = Some t ∧ 0 ≤ t < 2) ∧
  (∀ t, Z.of_nat (occurrences three_students_best t)
        ≤ MAX_STUDENTS_PER_TOPIC).
Proof.
  assert (solve (solver := brute_force) three_students 2
          = Ok three_students_best) as Hsolve by (vm_compute; reflexivity).
  split; [done|].
  exact (solve_assigns_everyone_within_capacity (solver := brute_force)
           three_students 2 three_students_best Hsolve).
Defined.

Lemma solve_succeeds_when_topics_suffice_witness :
  nonneg_weights three_students ∧
  sums_to_budget three_students ∧
  Z.of_nat (size three_students) ≤ 2 * MAX_STUDENTS_PER_TOPIC ∧
  ∃ a, solve (solver := brute_force) three_students 2 = Ok a.
Proof.
  assert (nonneg_weights three_students) as Hnn by by_evaluation.
  assert (sums_to_budget three_students) as Hsum by by_evaluation.
  assert (Z.of_nat (size three_students) ≤ 2 * MAX_STUDENTS_PER_TOPIC)
    as Hsize by by_evaluation.
  refine (conj Hnn (conj Hsum (conj Hsize _))).
  exact (solve_succeeds_when_topics_suffice (solver := brute_force)
           three_students 2 Hnn Hsum Hsize).
Defined.



Lemma no_students_empty_assignment_witness :
  solve (solver := brute_force) ∅ 5 = Ok ∅.
Proof. exact (no_students_empty_assignment (solver := brute_force) 5). Defined.







Example twice_voted_run :
  topic_value [mkVote 0 5; mkVote 0 4] 0 = 4 ∧
  solve (solver := brute_force) twice_voted 1 = Ok {[ "ann" := 0 ]} ∧
  total_reward (mkPreferences twice_voted 1) {[ "ann" := 0 ]} = 4.
Proof. split_and!; [reflexivity|vm_compute; reflexivity|reflexivity]. Qed.

Lemma negative_weights_accepted_witness :
  negative_vote !! "ann" = Some [mkVote 0 10; mkVote 1 (-1)] ∧
  mkVote 1 (-1) ∈ [mkVote 0 10; mkVote 1 (-1)] ∧
  preference (mkVote 1 (-1)) < 0 ∧
  sums_to_budget negative_vote ∧
  Preferences_new negative_vote 2 = Ok (mkPreferences negative_vote 2).
Proof.
  assert (negative_vote !! "ann" = Some [mkVote 0 10; mkVote 1 (-1)]) as Hs
    by reflexivity.
  assert (mkVote 1 (-1) ∈ [mkVote 0 10; mkVote 1 (-1)]) as Hv
    by (right; by left).
  assert (preference (mkVote 1 (-1)) < 0) as Hneg by (simpl; lia).
  assert (sums_to_budget negative_vote) as Hsum by by_evaluation.
  refine (conj Hs (conj Hv (conj Hneg (conj Hsum _)))).
  exact (negative_weights_accepted negative_vote 2 "ann"
           [mkVote 0 10; mkVote 1 (-1)] (mkVote 1 (-1)) Hs Hv Hneg Hsum).
Defined.

(** ** Why the weights have to be non-negative

    The joy variables range over [0, MAX_POINTS_PER_STUDENT].  With a
    negative weight the construction still succeeds, but a topic whose
    value leaves that range cannot be given any more: the optimum of the
    model is then not the optimum over the assignments, and the model may
    have no solution although the topics suffice. *)

Example negative_weight_loses_optimum :
  solve (solver := brute_force) negative_vote 3 = Ok {[ "ann" := 2 ]} ∧
  feasible (mkPreferences negative_vote 3) {[ "ann" := 0 ]} ∧
  total_reward (mkPreferences negative_vote 3) {[ "ann" := 2 ]} = 0 ∧
  total_reward (mkPreferences negative_vote 3) {[ "ann" := 0 ]} = 10.
Proof.
  split_and!; [vm_compute; reflexivity|by_evaluation|reflexivity..].
Qed.

Example negative_weight_loses_feasibility :
  sums_to_budget negative_vote ∧
  Z.of_nat (size negative_vote) ≤ 2 * MAX_STUDENTS_PER_TOPIC ∧
  solve (solver := brute_force) negative_vote 2
  = Raise (ValueError "Optimal solution not found").
Proof. split_and!; [by_evaluation..|vm_compute; reflexivity]. Qed.

(** * More about [build_model] *)

Lemma length_join_imap {A B} (f : nat → A → list B) (k : nat) (l : list A) :
  (∀ i a, l !! i = Some a → length (f i a) = k) →
  length (mjoin (imap f l)) = (length l * k)%nat.
Proof.
  revert f. induction l as [|a l IH]; intros f Hf; [done|].
  rewrite imap_cons. simpl. rewrite length_app.
  rewrite (Hf 0%nat a eq_refl), (IH (f ∘ S)); [done|].
  intros i a' Hi. by apply (Hf (S i)).
Qed.

Lemma rows_variables (names : list string) (m b : nat) :
  mjoin (imap (λ i (_ : string), (λ j, ((b + i) * m + j)%nat) <$> seq 0 m)
              names)
  = seq (b * m) (length names * m).
Proof.
  revert b. induction names as [|s names IH]; intros b; [done|].
  rewrite imap_cons. simpl. rewrite seq_app. f_equal.
  - trans (Nat.add (b * m) <$> seq 0 m).
    + apply list_fmap_ext. intros _ j _. lia.
    + rewrite fmap_add_seq. f_equal. lia.
  - trans (seq (S b * m) (length names * m)); [|f_equal; lia].
    rewrite <- (IH (S b)). f_equal. apply imap_ext. intros i s' _.
    apply list_fmap_ext. intros _ j _. unfold compose. lia.
Qed.

Lemma thesis_of_variables (names : list string) (topics : list Z) :
  mjoin ((λ sr, sr.2.*2) <$> thesis_of names topics)
  = seq 0 (length names * length topics).
Proof.
  unfold thesis_of. rewrite fmap_imap.
  trans (seq (0 * length topics) (length names * length topics)); [|done].
  rewrite <- (rows_variables names (length topics) 0).
  f_equal. apply imap_ext. intros i s _. unfold compose. cbn [snd].
  by rewrite row_vars.
Qed.

Lemma joys_of_variables (names : list string) (topics : list Z) :
  (joys_of names topics).*2
  = seq (length names * length topics) (length names).
Proof.
  unfold joys_of.
  rewrite (row_vars (λ i, (length names * length topics + i)%nat) names).
  trans (Nat.add (length names * length topics) <$> seq 0 (length names)).
  - done.
  - rewrite fmap_add_seq. f_equal. lia.
Qed.

Section dict_imap.
Context {K V : Type} `{EqDecision K}.

Lemma dict_get_imap (f : nat → V) (keys : list K) (i : nat) (k : K) :
  NoDup keys → keys !! i = Some k →
  dict_get (imap (λ i k, (k, f i)) keys) k = Some (f i).
Proof.
  intros Hnd Hi. apply (dict_get_lookup _ i).
  - by rewrite row_topics.
  - by rewrite list_lookup_imap, Hi.
Qed.

Lemma dict_get_imap_None (f : nat → V) (keys : list K) (k : K) :
  k ∉ keys → dict_get (imap (λ i k, (k, f i)) keys) k = None.
Proof. intros Hk. apply dict_get_None. by rewrite row_topics. Qed.

End dict_imap.

Lemma build_model_inv p model vars :
  build_model p = Ok (model, vars) →
  model = model_of (map_to_list (students p)) (seqZ 0 (topics_count p)) ∧
  vars = thesis_of (map_to_list (students p)).*1 (seqZ 0 (topics_count p)).
Proof.
  intros Hok. pose proof (build_model_Ok_fits _ _ _ Hok) as Hfit.
  rewrite build_model_fits in Hok by done. by injection Hok as <- <-.
Qed.


(** X2. The dictionary [student2thesis] that [build_model] returns has one
    entry per student and no other, every entry maps exactly the topics
    [0 .. topics_count - 1] in ascending order, the variables it holds and
    the joys of the objective are pairwise distinct, the former are booleans
    and the latter range over [0, MAX_POINTS_PER_STUDENT]. *)
Theorem build_model_variables p model student2thesis :
  build_model p = Ok (model, student2thesis) →
  NoDup (student2thesis.*1) ∧
  (∀ s, s ∈ student2thesis.*1 ↔ s ∈ dom (students p)) ∧
  Forall (λ sr, sr.2.*1 = seqZ 0 (topics_count p)) student2thesis ∧
  NoDup (mjoin ((λ sr, sr.2.*2) <$> student2thesis) ++ objective model) ∧
  Forall (λ x, variables model !! x = Some (0, 1))
         (mjoin ((λ sr, sr.2.*2) <$> student2thesis)) ∧
  Forall (λ x, variables model !! x = Some (0, MAX_POINTS_PER_STUDENT))
         (objective model).
Proof.
  intros [-> ->]%build_model_inv.
  set (items := map_to_list (students p)).
  set (topics := seqZ 0 (topics_count p)).
  rewrite thesis_of_names, thesis_of_variables.
  unfold model_of. cbn [variables objective].
  rewrite joys_of_variables, !length_fmap. split_and!.
  - apply NoDup_fst_map_to_list.
  - intros s. unfold items. by rewrite names_of_students, elem_of_dom.
  - apply Forall_forall. intros [s row] Hin.
    apply list_elem_of_lookup in Hin as [i Hi]. unfold thesis_of in Hi.
    rewrite list_lookup_imap in Hi.
    destruct (items.*1 !! i); [|done]. injection Hi as <- <-.
    apply row_topics.
  - rewrite <- seq_app. apply NoDup_seq.
  - apply Forall_forall. intros x [_ Hx]%elem_of_seq.
    rewrite lookup_app_l by (rewrite length_replicate; lia).
    apply lookup_replicate_2. lia.
  - apply Forall_forall. intros x [Hx1 Hx2]%elem_of_seq.
    rewrite lookup_app_r by (rewrite length_replicate; lia).
    rewrite length_replicate. apply lookup_replicate_2. lia.
Qed.

Lemma make_topic2students_nonempty names topics :
  NoDup names → NoDup topics → names ≠ [] →
  make_topic2students (thesis_of names topics) = columns_of names topics.
Proof.
  intros Hnames Htopics Hne. rewrite make_topic2students_closed by done.
  by destruct names.
Qed.

(** X3. [topic2students] is the transpose of [student2thesis]: for every
    topic and student, [topic2students[topic][student]] is the variable
    [student2thesis[student][topic]], and the one lookup misses exactly when
    the other does. *)
Theorem topic2students_transposes p model student2thesis s t :
  build_model p = Ok (model, student2thesis) →
  (col ← dict_get (make_topic2students student2thesis) t; dict_get col s)
  = (row ← dict_get student2thesis s; dict_get row t).
Proof.
  intros [_ ->]%build_model_inv.
  pose proof (NoDup_fst_map_to_list (students p)) as Hnames.
  pose proof (NoDup_seqZ 0 (topics_count p)) as Htopics.
  set (names := (map_to_list (students p)).*1) in *.
  set (topics := seqZ 0 (topics_count p)) in *.
  destruct (decide (names = [])) as [->|Hne]; [done|].
  rewrite make_topic2students_nonempty by done.
  unfold thesis_of, columns_of.
  destruct (decide (s ∈ names)) as [[i Hi]%list_elem_of_lookup|Hs];
    destruct (decide (t ∈ topics)) as [[j Hj]%list_elem_of_lookup|Ht].
  - rewrite (dict_get_imap _ names i s), (dict_get_imap _ topics j t) by done.
    simpl.
    by rewrite (dict_get_imap _ names i s), (dict_get_imap _ topics j t).
  - rewrite (dict_get_imap _ names i s) by done.
    rewrite (dict_get_imap_None _ topics t) by done. simpl.
    by rewrite (dict_get_imap_None _ topics t).
  - rewrite (dict_get_imap_None _ names s) by done.
    rewrite (dict_get_imap _ topics j t) by done. simpl.
    by rewrite (dict_get_imap_None _ names s).
  - rewrite (dict_get_imap_None _ names s) by done.
    by rewrite (dict_get_imap_None _ topics t).
Qed.

(** X4. The loops [for student, topics in student2thesis.items()] rebind
    the name [topics]; the list the preference loop then iterates is still
    [0 .. topics_count - 1], so no joy constraint is lost or added. *)
Theorem topics_rebinding_is_harmless p model student2thesis :
  build_model p = Ok (model, student2thesis) →
  topics_after_loops (seqZ 0 (topics_count p)) student2thesis
  = seqZ 0 (topics_count p).
Proof. intros [_ ->]%build_model_inv. apply topics_after_loops_same. Qed.

(** * More about the run *)

Lemma admissible_alt p a :
  admissible p a ↔
  map_Forall (λ s votes,
                match a !! s with
                | Some t => 0 ≤ topic_value votes t ≤ MAX_POINTS_PER_STUDENT
                | None => True
                end) (students p).
Proof.
  unfold admissible, map_Forall. split.
  - intros Hadm s votes Hs. destruct (a !! s) as [t|] eqn:Ha; [|done].
    by apply (Hadm s).
  - intros Hall s votes t Hs Ha. specialize (Hall s votes Hs).
    by rewrite Ha in Hall.
Qed.

#[global] Instance joy_fits_dec (a : gmap string Z) s votes :
  Decision (match a !! s with
            | Some t => 0 ≤ topic_value votes t ≤ MAX_POINTS_PER_STUDENT
            | None => True
            end).
Proof. destruct (a !! s); apply _. Defined.

#[global] Instance admissible_dec p a : Decision (admissible p a).
Proof.
  refine (cast_if (decide (map_Forall (λ s votes,
                match a !! s with
                | Some t => 0 ≤ topic_value votes t ≤ MAX_POINTS_PER_STUDENT
                | None => True
                end) (students p)))); by rewrite admissible_alt.
Defined.

Lemma admissible_joy_of p a s votes :
  admissible p a → students p !! s = Some votes →
  0 ≤ joy_of a s votes ≤ MAX_POINTS_PER_STUDENT.
Proof.
  intros Hadm Hs. unfold joy_of.
  destruct (a !! s) as [t|] eqn:Ha; [by apply (Hadm s)|].
  unfold MAX_POINTS_PER_STUDENT. lia.
Qed.

(** With non-negative weights summing to the budget every assignment is
    admissible. *)
Lemma nonneg_admissible raw tc a :
  nonneg_weights raw → sums_to_budget raw →
  admissible (mkPreferences raw tc) a.
Proof.
  intros Hnn Hsum s votes t Hs _. simpl in Hs.
  apply topic_value_bounds; [by eapply Hnn|by eapply Hsum].
Qed.

Lemma admissible_solution raw tc a :
  feasible (mkPreferences raw tc) a → admissible (mkPreferences raw tc) a →
  satisfies (model_of (map_to_list raw) (seqZ 0 tc))
            (solution_of a (map_to_list raw) (seqZ 0 tc)) ∧
  objective_value (model_of (map_to_list raw) (seqZ 0 tc))
                  (solution_of a (map_to_list raw) (seqZ 0 tc))
  = total_reward (mkPreferences raw tc) a.
Proof.
  intros Hfeas Hadm.
  pose proof (feasible_dom _ _ Hfeas) as Hdom.
  pose proof (feasible_range _ _ Hfeas) as Hrange.
  destruct Hfeas as (_ & _ & Hcap). simpl in *.
  split; [|apply solution_of_objective].
  apply solution_of_satisfies; try done.
  - apply NoDup_fst_map_to_list.
  - apply NoDup_seqZ.
  - intros s votes Hin%elem_of_map_to_list.
    by apply (admissible_joy_of (mkPreferences raw tc)).
Qed.

Lemma solution_admissible raw tc sol :
  satisfies (model_of (map_to_list raw) (seqZ 0 tc)) sol →
  admissible (mkPreferences raw tc)
             (read_solution sol (thesis_of (map_to_list raw).*1 (seqZ 0 tc))).
Proof.
  intros Hsat s votes t Hs Ha. simpl in Hs.
  pose proof (NoDup_fst_map_to_list raw) as Hnames.
  pose proof (NoDup_seqZ 0 tc) as Htopics.
  apply elem_of_map_to_list, list_elem_of_lookup in Hs as [i Hi].
  destruct (solution_row _ _ Hnames Htopics sol Hsat i s votes Hi)
    as (j & t' & Hj & Htrue & Ha').
  rewrite Ha' in Ha. injection Ha as ->.
  pose proof Hsat as Hsat'.
  apply satisfies_model_of in Hsat' as (Hdom & _ & _ & H3); [|done..].
  rewrite <- (H3 i j s votes t Hi Hj Htrue).
  set (n := length (map_to_list raw)) in *.
  set (m := length (seqZ 0 tc)) in *.
  assert ((replicate (n * m) (0, 1)
           ++ replicate n (0, MAX_POINTS_PER_STUDENT)) !! joy_var n m i
          = Some (0, MAX_POINTS_PER_STUDENT)) as Hd.
  { unfold joy_var. rewrite lookup_app_r by (rewrite length_replicate; lia).
    rewrite length_replicate. apply lookup_replicate_2.
    apply lookup_lt_Some in Hi. fold n in Hi. lia. }
  destruct (Forall2_lookup_r _ _ _ _ _ Hdom Hd) as (x & Hx & Hin).
  unfold Value. by rewrite (list_lookup_total_correct _ _ _ Hx).
Qed.

Lemma total_reward_bounds p a :
  admissible p a →
  0 ≤ total_reward p a
  ≤ MAX_POINTS_PER_STUDENT * Z.of_nat (size (students p)).
Proof.
  intros Hadm. unfold total_reward. rewrite <- length_map_to_list. split.
  - apply sum_nonneg, Forall_fmap, Forall_forall.
    intros [s votes] Hin%elem_of_map_to_list. simpl.
    by apply (admissible_joy_of p).
  - apply sum_fmap_le. intros [s votes] Hin%elem_of_map_to_list. simpl.
    by apply (admissible_joy_of p).
Qed.

Lemma topic_value_relevant tc votes t :
  0 ≤ t < tc → topic_value (relevant_votes tc votes) t = topic_value votes t.
Proof.
  intros Ht. unfold relevant_votes.
  by rewrite topic_value_keep_last, topic_value_in_range.
Qed.

Lemma relevant_votes_normal tc votes :
  NoDup (topic_id <$> relevant_votes tc votes) ∧
  Forall (in_range tc) (relevant_votes tc votes).
Proof.
  split; [apply keep_last_votes_NoDup|].
  apply Forall_forall. intros v Hv%keep_last_votes_topics.
  by apply list_elem_of_filter in Hv as [? _].
Qed.

(** X11. [build_model] looks at the votes only through the value of each
    topic of the range: it returns the same model and the same dictionary
    when every student's votes are cut down to the last vote for each topic
    of [0, topics_count) -- votes for other topics and earlier votes for a
    repeated topic leave no trace. *)
Theorem build_model_ignores_irrelevant_votes raw tc :
  build_model (mkPreferences raw tc)
  = build_model (mkPreferences (relevant_votes tc <$> raw) tc) ∧
  map_Forall (λ _ votes, NoDup (topic_id <$> votes) ∧ Forall (in_range tc) votes)
             (relevant_votes tc <$> raw).
Proof.
  split.
  - symmetry. apply (build_model_ext (relevant_votes tc)).
    intros votes t Ht. by apply topic_value_relevant.
  - intros s votes Hs. rewrite lookup_fmap in Hs.
    destruct (raw !! s) as [votes'|]; [|done]. injection Hs as <-.
    apply relevant_votes_normal.
Qed.

(** X10. Reading the solution back never raises, whatever values the
    solver reports: for a dictionary with distinct students, a student gets
    the topic of the last variable of its row that is true, and a student
    whose row has no true variable is left out of the result, as is every
    name that is not in the dictionary. *)
Theorem read_solution_takes_last_true sol student2topic :
  NoDup (student2topic.*1) →
  (∀ s row, (s, row) ∈ student2topic →
     read_solution sol student2topic !! s
     = fst <$> last (filter (λ tx, BooleanValue sol tx.2 = true) row)) ∧
  (∀ s, s ∉ student2topic.*1 → read_solution sol student2topic !! s = None).
Proof.
  intros Hnd. split.
  - intros s row [i Hi]%list_elem_of_lookup.
    by rewrite (read_solution_lookup _ _ i s row).
  - intros s Hs. by apply read_solution_notin.
Qed.

Section run_more.
Context {solver : CpSolver}.

(** X5. Whatever the weights, an assignment that [solve] returns never
    gives a student a topic whose value lies outside
    [0, MAX_POINTS_PER_STUDENT], so its total reward lies between [0] and
    [9] times the number of students. *)
Theorem solve_respects_joy_domain raw tc a :
  solve raw tc = Ok a →
  (∀ s votes t, raw !! s = Some votes → a !! s = Some t →
     0 ≤ topic_value votes t ≤ MAX_POINTS_PER_STUDENT) ∧
  0 ≤ total_reward (mkPreferences raw tc) a
    ≤ MAX_POINTS_PER_STUDENT * Z.of_nat (size raw).
Proof.
  intros (Hsum & Hopt & ->)%solve_Ok_inv.
  apply Solve_optimal in Hopt as [Hsat _].
  pose proof (solution_admissible raw tc _ Hsat) as Hadm.
  split; [exact Hadm|]. by apply (total_reward_bounds (mkPreferences raw tc)).
Qed.

(** X6. Whatever the weights, an assignment that [solve] returns has at
    least the total reward of every feasible assignment that gives no
    student a topic whose value lies outside [0, MAX_POINTS_PER_STUDENT]. *)
Theorem solve_maximises_among_admissible raw tc a :
  solve raw tc = Ok a →
  ∀ a', feasible (mkPreferences raw tc) a' →
        admissible (mkPreferences raw tc) a' →
        total_reward (mkPreferences raw tc) a'
        ≤ total_reward (mkPreferences raw tc) a.
Proof.
  intros (Hsum & Hopt & ->)%solve_Ok_inv a' Hfeas Hadm.
  apply Solve_optimal in Hopt as [Hsat Hmax].
  destruct (admissible_solution raw tc a' Hfeas Hadm) as [Hsat' <-].
  destruct (solution_feasible raw tc _ Hsat) as [_ <-].
  by apply Hmax.
Qed.




End run_more.

(** * The random test data *)

Lemma first_choices_spec population k g :
  population ≠ [] →
  length (first_choices population k g).1 = k ∧
  Forall (λ x, x ∈ population) (first_choices population k g).1.
Proof.
  intros Hne. unfold first_choices. simpl. split; [apply length_replicate|].
  destruct population as [|x population]; [done|]. simpl.
  apply Forall_replicate. by left.
Qed.

Lemma first_sample_spec population k g :
  (k ≤ length population)%nat →
  length (first_sample population k g).1 = k ∧
  (first_sample population k g).1 ⊆+ population.
Proof.
  intros Hk. unfold first_sample. simpl. split.
  - rewrite length_take. lia.
  - apply submseteq_take.
Qed.

Definition first_draws : Random :=
  {| rng := unit;
     draw_choices := first_choices;
     draw_sample := first_sample;
     draw_choices_spec := first_choices_spec;
     draw_sample_spec := first_sample_spec |}.

Lemma sum_replicate_ones (k : nat) : sum (replicate k 1) = Z.of_nat k.
Proof.
  induction k as [|k IH]; [done|].
  simpl replicate. rewrite sum_cons, IH. lia.
Qed.

(** A slice of a list of ones sums to its width. *)
Lemma sum_slice_ones (n : nat) (i j : Z) :
  0 ≤ i ≤ j → j ≤ Z.of_nat n →
  sum (slice (replicate n 1) i j) = j - i.
Proof.
  intros Hij Hj. unfold slice, slice_index.
  rewrite length_replicate.
  rewrite !decide_False by lia.
  rewrite !Z.min_l by lia.
  rewrite drop_replicate, take_replicate, sum_replicate_ones. lia.
Qed.

Lemma submseteq_NoDup {A} (l k : list A) : l ⊆+ k → NoDup k → NoDup l.
Proof.
  intros [k' Hk]%submseteq_Permutation Hnd. rewrite Hk in Hnd.
  by apply NoDup_app in Hnd as [? _].
Qed.

Lemma sorted_pair (picked : list Z) (lo hi : Z) :
  length picked = 2%nat → Forall (λ x, lo ≤ x < hi) picked →
  ∃ a b, merge_sort Z.le picked = [a; b] ∧ lo ≤ a ∧ a ≤ b ∧ b < hi.
Proof.
  intros Hlen Hin.
  pose proof (merge_sort_Permutation Z.le picked) as Hperm.
  pose proof (Sorted_merge_sort Z.le picked) as Hsorted.
  rewrite <- Hperm in Hin.
  apply Permutation_length in Hperm. rewrite Hlen in Hperm.
  destruct (merge_sort Z.le picked) as [|a [|b [|??]]]; try done.
  exists a, b. split; [done|].
  apply Sorted_inv in Hsorted as [_ Hab]. apply HdRel_inv in Hab.
  apply Forall_cons in Hin as [Ha Hin]. apply Forall_cons in Hin as [Hb _].
  lia.
Qed.

Section random_facts.
Context {random : Random}.

(** X12. With [max_sum >= 1] and [max_topics >= 3], whatever is drawn,
    [_random_preferences] returns three votes for three distinct topics of
    [0, max_topics), with non-negative weights that sum to [max_sum]; the
    last weight is at least one. *)
Theorem random_preferences_are_valid max_sum max_topics g :
  1 ≤ max_sum → 3 ≤ max_topics →
  ∃ votes g',
    _random_preferences max_sum max_topics g = Done (votes, g') ∧
    length votes = 3%nat ∧
    NoDup (topic_id <$> votes) ∧
    Forall (in_range max_topics) votes ∧
    Forall (λ v, 0 ≤ preference v) votes ∧
    sum (preference <$> votes) = max_sum ∧
    (∃ v, last votes = Some v ∧ 1 ≤ preference v).
Proof.
  intros Hsum Htopics. unfold _random_preferences, rbind'.
  unfold random_choices at 1.
  destruct (seqZ 0 max_sum) as [|x0 population] eqn:Hpop.
  { apply (f_equal length) in Hpop. rewrite length_seqZ in Hpop.
    simpl in Hpop. lia. }
  rewrite <- Hpop.
  destruct (draw_choices_spec (seqZ 0 max_sum) 2 g) as [Hlen Hin];
    [by rewrite Hpop|].
  destruct (draw_choices (seqZ 0 max_sum) 2 g) as [picked g1]. simpl in *.
  destruct (sorted_pair picked 0 max_sum Hlen) as (a & b & -> & Ha & Hab & Hb).
  { eapply Forall_impl; [exact Hin|]. intros x Hx%elem_of_seqZ. lia. }
  unfold random_sample.
  rewrite decide_True by (rewrite length_seqZ; lia).
  destruct (draw_sample_spec (seqZ 0 max_topics) 3 g1) as [Hlen3 Hsub];
    [rewrite length_seqZ; lia|].
  destruct (draw_sample (seqZ 0 max_topics) 3 g1) as [topics g2]. simpl in *.
  pose proof (submseteq_NoDup _ _ Hsub (NoDup_seqZ 0 max_topics)) as Hnd.
  assert (Forall (λ t, 0 ≤ t < max_topics) topics) as Hrange.
  { apply Forall_forall. intros t Ht.
    apply (elem_of_submseteq _ _ _ Ht), elem_of_seqZ in Hsub. lia. }
  destruct topics as [|t1 [|t2 [|t3 [|??]]]]; try done.
  eexists _, g2. split; [reflexivity|].
  change (slice [0; a; b; max_sum] 0 (-1)) with [0; a; b].
  cbn [drop zip zip_with fst snd].
  apply Forall_cons in Hrange as [H1 Hrange].
  apply Forall_cons in Hrange as [H2 Hrange].
  apply Forall_cons in Hrange as [H3 _].
  rewrite !sum_slice_ones by lia.
  split_and!.
  - done.
  - done.
  - rewrite !Forall_cons, Forall_nil. unfold in_range. simpl. lia.
  - rewrite !Forall_cons, Forall_nil. simpl. lia.
  - simpl. rewrite !sum_cons, sum_nil. lia.
  - eexists. split; [reflexivity|]. simpl. lia.
Qed.

(** X13. [_random_preferences] raises [IndexError] when [max_sum] is zero
    or less, the population of [random.choices] being empty, and otherwise
    [ValueError] when [max_topics] is less than three. *)
Theorem random_preferences_errors max_sum max_topics g :
  (max_sum ≤ 0 →
   ∃ msg, _random_preferences max_sum max_topics g
          = Raised (IndexError msg)) ∧
  (1 ≤ max_sum → max_topics < 3 →
   ∃ msg, _random_preferences max_sum max_topics g
          = Raised (Script (ValueError msg))).
Proof.
  split.
  - intros Hsum. unfold _random_preferences, rbind', random_choices.
    rewrite seqZ_nil by done. eauto.
  - intros Hsum Htopics. unfold _random_preferences, rbind'.
    unfold random_choices at 1.
    destruct (seqZ 0 max_sum) as [|x0 population] eqn:Hpop.
    { apply (f_equal length) in Hpop. rewrite length_seqZ in Hpop.
      simpl in Hpop. lia. }
    destruct (draw_choices _ 2 g) as [picked g1].
    unfold random_sample.
    rewrite decide_False by (rewrite length_seqZ; lia). eauto.
Qed.

End random_facts.

#[global] Instance student_name_inj : Inj (=) (=) student_name.
Proof.
  intros i j Hij. unfold student_name in Hij.
  by apply (inj (String.app "student_")), (inj pretty) in Hij.
Qed.

Section random_run.
Context {random : Random}.

(** The dictionary comprehension never raises; it adds one entry per
    identifier, and every entry it adds passes the check. *)
Lemma random_students_run ids students g :
  sums_to_budget students → nonneg_weights students →
  ∃ students' g',
    random_students ids students g = Done (students', g') ∧
    dom students' = dom students ∪ list_to_set (student_name <$> ids) ∧
    sums_to_budget students' ∧ nonneg_weights students'.
Proof.
  revert students g. induction ids as [|i ids IH]; intros students g Hsum Hnn.
  - exists students, g. split_and!; [done| |done..].
    simpl. by rewrite (right_id_L ∅ (∪)).
  - simpl. unfold rbind' at 1.
    destruct (random_preferences_are_valid MAX_POINTS_PER_STUDENT N_TOPICS g)
      as (votes & g1 & -> & _ & _ & _ & Hvnn & Hvsum & _);
      [unfold MAX_POINTS_PER_STUDENT; lia|unfold N_TOPICS; lia|].
    destruct (IH (<[student_name i := votes]> students) g1)
      as (students' & g' & Hrun & Hdom & Hsum' & Hnn').
    + intros s votes'. rewrite lookup_insert.
      case_decide; [by intros [= <-]|apply Hsum].
    + intros s votes'. rewrite lookup_insert.
      case_decide; [by intros [= <-]|apply Hnn].
    + exists students', g'. split_and!; [done| |done..].
      rewrite Hdom, dom_insert_L. simpl.
      by rewrite (comm_L (∪) {[student_name i]}), (assoc_L (∪)).
Qed.

(** X14. [test_on_random] never raises, whatever is drawn and whichever
    optimum the solver picks: it prints an assignment of the 150 students
    [student_0] .. [student_149], each to a topic of [0, 90), with at most
    two students per topic. *)
Theorem test_on_random_succeeds {solver : CpSolver} g :
  ∃ a g',
    test_on_random g = Done (a, g') ∧
    dom a = list_to_set (student_name <$> seqZ 0 N_STUDENTS) ∧
    size a = 150%nat ∧
    (∀ s t, a !! s = Some t → 0 ≤ t < N_TOPICS) ∧
    (∀ t, Z.of_nat (occurrences a t) ≤ MAX_STUDENTS_PER_TOPIC).
Proof.
  unfold test_on_random, rbind'.
  destruct (random_students_run (seqZ 0 N_STUDENTS) ∅ g)
    as (students & g' & -> & Hdom & Hsum & Hnn).
  { by intros s votes Hs. }
  { by intros s votes Hs. }
  rewrite dom_empty_L, (left_id_L ∅ (∪)) in Hdom.
  assert (size students = 150%nat) as Hsize.
  { rewrite <- size_dom, Hdom, size_list_to_set.
    - by rewrite length_fmap, length_seqZ.
    - apply NoDup_fmap_2; [apply _|apply NoDup_seqZ]. }
  destruct (solve_returns students N_TOPICS
              (two_per_topic (map_to_list students)) Hnn Hsum) as [a Ha].
  { apply two_per_topic_feasible. rewrite Hsize.
    unfold N_TOPICS, MAX_STUDENTS_PER_TOPIC. lia. }
  exists a, g'. unfold lift. rewrite Ha. split; [done|].
  apply solve_Ok_inv in Ha as (_ & Hopt & ->).
  apply Solve_optimal in Hopt as [Hsat _].
  destruct (solution_feasible students N_TOPICS _ Hsat)
    as [(Hdoma & Hrange & Hcap) _]. simpl in *.
  split_and!; [by rewrite Hdoma|by rewrite <- size_dom, Hdoma, size_dom|done..].
Qed.

End random_run.

(** * The further properties on concrete inputs *)

Lemma build_model_variables_witness :
  build_model (mkPreferences three_students 2)
  = Ok (three_students_model, three_students_thesis) ∧
  NoDup (three_students_thesis.*1) ∧
  (∀ s, s ∈ three_students_thesis.*1 ↔ s ∈ dom three_students) ∧
  Forall (λ sr, sr.2.*1 = seqZ 0 2) three_students_thesis ∧
  NoDup (mjoin ((λ sr, sr.2.*2) <$> three_students_thesis)
         ++ objective three_students_model) ∧
  Forall (λ x, variables three_students_model !! x = Some (0, 1))
         (mjoin ((λ sr, sr.2.*2) <$> three_students_thesis)) ∧
  Forall (λ x, variables three_students_model !! x
               = Some (0, MAX_POINTS_PER_STUDENT))
         (objective three_students_model).
Proof.
  assert (build_model (mkPreferences three_students 2)
          = Ok (three_students_model, three_students_thesis)) as Hrun
    by (vm_compute; reflexivity).
  refine (conj Hrun _).
  exact (build_model_variables (mkPreferences three_students 2)
           three_students_model three_students_thesis Hrun).
Defined.

Lemma topic2students_transposes_witness :
  build_model (mkPreferences three_students 2)
  = Ok (three_students_model, three_students_thesis) ∧
  (col ← dict_get (make_topic2students three_students_thesis) 1;
   dict_get col "bob")
  = (row ← dict_get three_students_thesis "bob"; dict_get row 1).
Proof.
  assert (build_model (mkPreferences three_students 2)
          = Ok (three_students_model, three_students_thesis)) as Hrun
    by (vm_compute; reflexivity).
  refine (conj Hrun _).
  exact (topic2students_transposes (mkPreferences three_students 2)
           three_students_model three_students_thesis "bob" 1 Hrun).
Defined.

Lemma topics_rebinding_is_harmless_witness :
  build_model (mkPreferences three_students 2)
  = Ok (three_students_model, three_students_thesis) ∧
  topics_after_loops (seqZ 0 2) three_students_thesis = seqZ 0 2.
Proof.
  assert (build_model (mkPreferences three_students 2)
          = Ok (three_students_model, three_students_thesis)) as Hrun
    by (vm_compute; reflexivity).
  refine (conj Hrun _).
  exact (topics_rebinding_is_harmless (mkPreferences three_students 2)
           three_students_model three_students_thesis Hrun).
Defined.

(** With a third topic the student of [negative_vote] can be given a topic
    of value [0]; the other two topics are worth [10] and [-1]. *)
Lemma solve_respects_joy_domain_witness :
  solve (solver := brute_force) negative_vote 3 = Ok {[ "ann" := 2 ]} ∧
  (∀ s votes t, negative_vote !! s = Some votes →
     ({[ "ann" := 2 ]} : gmap string Z) !! s = Some t →
     0 ≤ topic_value votes t ≤ MAX_POINTS_PER_STUDENT) ∧
  0 ≤ total_reward (mkPreferences negative_vote 3) {[ "ann" := 2 ]}
    ≤ MAX_POINTS_PER_STUDENT * Z.of_nat (size negative_vote).
Proof.
  assert (solve (solver := brute_force) negative_vote 3
          = Ok {[ "ann" := 2 ]}) as Hsolve by (vm_compute; reflexivity).
  refine (conj Hsolve _).
  exact (solve_respects_joy_domain (solver := brute_force)
           negative_vote 3 {[ "ann" := 2 ]} Hsolve).
Defined.

Lemma solve_maximises_among_admissible_witness :
  solve (solver := brute_force) three_students 2 = Ok three_students_best ∧
  feasible (mkPreferences three_students 2) three_students_other ∧
  admissible (mkPreferences three_students 2) three_students_other ∧
  total_reward (mkPreferences three_students 2) three_students_other
  ≤ total_reward (mkPreferences three_students 2) three_students_best.
Proof.
  assert (solve (solver := brute_force) three_students 2
          = Ok three_students_best) as Hsolve by (vm_compute; reflexivity).
  assert (feasible (mkPreferences three_students 2) three_students_other)
    as Hfeas by by_evaluation.
  assert (admissible (mkPreferences three_students 2) three_students_other)
    as Hadm by by_evaluation.
  refine (conj Hsolve (conj Hfeas (conj Hadm _))).
  exact (solve_maximises_among_admissible (solver := brute_force)
           three_students 2 three_students_best Hsolve
           three_students_other Hfeas Hadm).
Defined.



Lemma read_solution_takes_last_true_witness :
  NoDup (two_rows.*1) ∧
  (∀ s row, (s, row) ∈ two_rows →
     read_solution two_rows_values two_rows !! s
     = fst <$> last (filter (λ tx, BooleanValue two_rows_values tx.2 = true)
                            row)) ∧
  (∀ s, s ∉ two_rows.*1 →
     read_solution two_rows_values two_rows !! s = None).
Proof.
  assert (NoDup (two_rows.*1)) as Hnd by by_evaluation.
  refine (conj Hnd _).
  exact (read_solution_takes_last_true two_rows_values two_rows Hnd).
Defined.

Lemma random_preferences_are_valid_witness :
  1 ≤ 9 ∧ 3 ≤ 90 ∧
  ∃ votes g',
    _random_preferences (random := first_draws) 9 90 () = Done (votes, g') ∧
    length votes = 3%nat ∧
    NoDup (topic_id <$> votes) ∧
    Forall (in_range 90) votes ∧
    Forall (λ v, 0 ≤ preference v) votes ∧
    sum (preference <$> votes) = 9 ∧
    (∃ v, last votes = Some v ∧ 1 ≤ preference v).
Proof.
  assert (1 ≤ 9) as Hsum by lia.
  assert (3 ≤ 90) as Htopics by lia.
  refine (conj Hsum (conj Htopics _)).
  exact (random_preferences_are_valid (random := first_draws) 9 90 ()
           Hsum Htopics).
Defined.

(** No point to share out, and two topics for three votes. *)
Lemma random_preferences_errors_witness :
  (∃ msg, _random_preferences (random := first_draws) 0 90 ()
          = Raised (IndexError msg)) ∧
  (∃ msg, _random_preferences (random := first_draws) 9 2 ()
          = Raised (Script (ValueError msg))).
Proof.
  split.
  - apply (proj1 (random_preferences_errors (random := first_draws) 0 90 ())).
    lia.
  - apply (proj2 (random_preferences_errors (random := first_draws) 9 2 ()));
      lia.
Defined.


